(** * Plain-rewritable object-storage metadata: loader, resolver, lifecycle

    A shallow embedding of
    [src/Disks/ObjectStorages/MetadataStorageFromPlainRewritableObjectStorage.cpp]:
    the marker-file loader [loadPathPrefixMap], the direct-children
    resolver [getDirectChildrenOnRewritableDisk] and the constructor and
    destructor of [MetadataStorageFromPlainRewritableObjectStorage].

    Conventions.
    - [std::string] is [string] (a sequence of bytes); [npos] is [None].
    - [std::unordered_map] is [gmap] and [std::unordered_set] is [gset].
      The Path Map, a [std::map] whose keys are paths, is the [gmap] of its
      entries under the native strings of its keys; its operations compare
      keys as [std::filesystem::path] does, and its ordered iteration is the
      list of its entries sorted by that comparison.
    - A C++ exception is a value of [Exception]; code that can throw
      returns a [Result].
    - The process-wide metric and the calls made on the object storage are
      kept in an explicit [World] that every effectful function threads.
    - [chassert] does nothing outside debug builds: the model runs past it,
      and each asserted condition is a [chassert_...] predicate. *)

From Stdlib Require Import String Ascii List Bool Arith ZArith Lia OrdersEx.
From Stdlib Require Import Sorting.Sorted Permutation.
From stdpp Require Import gmap strings list fin_maps sorting.

Set Warnings "-clear-no-such-hyp".

Open Scope string_scope.
Open Scope list_scope.

(** ** Exceptions *)

Inductive S3Errors := NO_SUCH_KEY | ACCESS_DENIED | SLOW_DOWN.

Inductive Exception :=
| LOGICAL_ERROR (message : string)   (* DB::Exception(ErrorCodes::LOGICAL_ERROR, ...) *)
| S3Exception (code : S3Errors)      (* DB::S3Exception, e.getS3ErrorCode() *)
| OutOfRange                         (* std::out_of_range *)
| OtherException (what : string).    (* anything else a read can throw *)

Inductive Result (A : Type) :=
| Ok (a : A)
| Throw (e : Exception).
Arguments Ok {A} a.
Arguments Throw {A} e.

Definition bindR {A B} (r : Result A) (k : A -> Result B) : Result B :=
  match r with
  | Ok a => k a
  | Throw e => Throw e
  end.

Definition is_Ok {A} (r : Result A) : bool :=
  match r with Ok _ => true | Throw _ => false end.

#[global] Instance S3Errors_eq_dec : EqDecision S3Errors.
Proof. solve_decision. Defined.

#[global] Instance Exception_eq_dec : EqDecision Exception.
Proof. solve_decision. Defined.

#[global] Instance Result_eq_dec {A} `{EqDecision A} : EqDecision (Result A).
Proof. solve_decision. Defined.

(** ** [std::string] *)

Module StdString.

Definition size (s : string) : nat := String.length s.

Fixpoint drop (n : nat) (s : string) : string :=
  match n, s with
  | 0, _ => s
  | S _, "" => ""
  | S n', String _ s' => drop n' s'
  end.

Fixpoint take (n : nat) (s : string) : string :=
  match n, s with
  | 0, _ => ""
  | S _, "" => ""
  | S n', String c s' => String c (take n' s')
  end.

(** [s.find(c, pos)]: index of the first [c] at or after [pos]. *)
Fixpoint find (c : ascii) (s : string) (pos : nat) : option nat :=
  match s with
  | "" => None
  | String a s' =>
      match pos with
      | 0 => if Ascii.eqb a c then Some 0 else S <$> find c s' 0
      | S p => S <$> find c s' p
      end
  end.

(** [s.substr(pos, n)]; [n = None] is the default [npos].  Throws
    [std::out_of_range] when [pos > s.size()]. *)
Definition substr (s : string) (pos : nat) (n : option nat) : Result string :=
  if Nat.ltb (size s) pos then Throw OutOfRange
  else Ok (match n with
           | None => drop pos s
           | Some len => take len (drop pos s)
           end).

(** [k.starts_with(p)] *)
Fixpoint starts_with (k p : string) {struct p} : bool :=
  match p, k with
  | "", _ => true
  | String _ _, "" => false
  | String c p', String d k' => Ascii.eqb c d && starts_with k' p'
  end.

(** [std::count(s.begin() + from, s.end(), c)] *)
Fixpoint count (c : ascii) (s : string) : nat :=
  match s with
  | "" => 0
  | String a s' => (if Ascii.eqb a c then 1 else 0) + count c s'
  end.

Definition count_from (from : nat) (s : string) (c : ascii) : nat :=
  count c (drop from s).

(** [std::string(s.begin() + from, s.end() - 1)] *)
Definition range_drop_last (from : nat) (s : string) : string :=
  take (size s - 1 - from) (drop from s).

(** [s.back()] *)
Fixpoint back (s : string) : option ascii :=
  match s with
  | "" => None
  | String a "" => Some a
  | String _ s' => back s'
  end.

End StdString.

(** ** [std::filesystem::path] (POSIX, generic format)

    A path is kept as its native string.  [rsplit] cuts it after its last
    separator: the directory part (empty, or ending in a separator) and the
    final component (free of separators).  Two paths are compared by their
    elements, not by their strings: there is no root name on POSIX, a run
    of separators counts as one, and a separator at the end of a path that
    has a name gives a last, empty element. *)

Module FsPath.

Definition is_sep (c : ascii) : bool := Ascii.eqb c "/".

Fixpoint rsplit (p : string) : string * string :=
  match p with
  | "" => ("", "")
  | String c p' =>
      match rsplit p' with
      | ("", f) => if is_sep c then (String c "", f) else ("", String c f)
      | (d, f) => (String c d, f)
      end
  end.

Fixpoint rstrip_seps (s : string) : string :=
  match s with
  | "" => ""
  | String c s' =>
      match rstrip_seps s' with
      | "" => if is_sep c then "" else String c ""
      | r => String c r
      end
  end.

(** [p.filename()] *)
Definition filename (p : string) : string := snd (rsplit p).

(** [p.parent_path()]: the path without its last element; a path that is
    empty or only a root directory is its own parent. *)
Definition parent_path (p : string) : string :=
  let (d, f) := rsplit p in
  let d' := rstrip_seps d in
  match f, d' with
  | "", "" => p
  | _, "" => d
  | _, _ => d'
  end.

(** [p.has_parent_path()] *)
Definition has_parent_path (p : string) : bool :=
  negb (String.eqb (parent_path p) "").

Definition has_sep (p : string) : bool :=
  match StdString.find "/" p 0 with Some _ => true | None => false end.

(** The names between the separators of [p], the empty ones included:
    ["/a//b/"] gives [""], ["a"], [""], ["b"], [""].  There is one name
    more than there are separators, so the list is never empty. *)
Fixpoint split_names (p : string) : list string :=
  match p with
  | "" => [""]
  | String c p' =>
      if is_sep c then "" :: split_names p'
      else match split_names p' with
           | [] => [String c ""]
           | n :: ns => String c n :: ns
           end
  end.

(** The elements that iterating [p.relative_path()] yields, from the
    names of [p]: the names that are not empty and, when the last name is
    empty and a name came before it, one empty element at the end. *)
Fixpoint relative_elements (names : list string) (after_name : bool)
  : list string :=
  match names with
  | [] => []
  | [n] =>
      match n with
      | "" => if after_name then [""] else []
      | _ => [n]
      end
  | n :: rest =>
      match n with
      | "" => relative_elements rest after_name
      | _ => n :: relative_elements rest true
      end
  end.

(** [p.has_root_directory()] *)
Definition has_root_directory (p : string) : bool :=
  match p with
  | String c _ => is_sep c
  | "" => false
  end.

Definition elements (p : string) : list string :=
  relative_elements (split_names p) false.

Fixpoint compare_elements (a b : list string) : comparison :=
  match a, b with
  | [], [] => Eq
  | [], _ :: _ => Lt
  | _ :: _, [] => Gt
  | x :: a', y :: b' =>
      match String.compare x y with
      | Eq => compare_elements a' b'
      | Lt => Lt
      | Gt => Gt
      end
  end.

(** [a.compare(b)]: a path without root directory is below a path with
    one; then the elements of the relative paths are compared in order,
    each as a string, and a path that runs out of elements first is
    below. *)
Definition compare (a b : string) : comparison :=
  match has_root_directory a, has_root_directory b with
  | false, true => Lt
  | true, false => Gt
  | _, _ => compare_elements (elements a) (elements b)
  end.

(** [a < b], [a <= b] and [a == b] on paths. *)
Definition lt (a b : string) : bool :=
  match compare a b with Lt => true | _ => false end.

Definition le (a b : string) : bool :=
  match compare a b with Gt => false | _ => true end.

Definition equivalent (a b : string) : bool :=
  match compare a b with Eq => true | _ => false end.

(** What [compare] looks at. *)
Definition path_key (p : string) : bool * list string :=
  (has_root_directory p, elements p).

(** [p] has no two adjacent separators. *)
Fixpoint normal (p : string) : bool :=
  match p with
  | "" => true
  | String c p' =>
      match p' with
      | "" => true
      | String d _ => negb (is_sep c && is_sep d) && normal p'
      end
  end.

(** The order of the strings in which the separator is below every other
    character. *)
Definition compare_char (c d : ascii) : comparison :=
  match is_sep c, is_sep d with
  | true, true => Eq
  | true, false => Lt
  | false, true => Gt
  | false, false => Ascii.compare c d
  end.

Fixpoint compare_chars (a b : string) : comparison :=
  match a, b with
  | "", "" => Eq
  | "", String _ _ => Lt
  | String _ _, "" => Gt
  | String c a', String d b' =>
      match compare_char c d with
      | Eq => compare_chars a' b'
      | Lt => Lt
      | Gt => Gt
      end
  end.

Definition compare_normal (a b : string) : comparison :=
  match has_root_directory a, has_root_directory b with
  | false, true => Lt
  | true, false => Gt
  | _, _ => compare_chars a b
  end.

End FsPath.

(** ** The Path Map *)

(** The declaration of [MetadataStorageFromPlainObjectStorage::PathMap] is
    in a header that is not among the sources; the code shows what it is:
    an ordered map ([lower_bound]) whose keys are paths ([it->first.string()],
    [emplace] of a string read from a marker) and whose values are strings
    ([emplace] of a [parent_path()], [PathMap::mapped_type] as the key type
    of a map of strings).  It is taken as [std::map] from
    [std::filesystem::path] to [std::string] with the order of the key
    type.

    A Path Map is kept as the finite map from the native string of each
    stored key to its value: [m !! k = Some v] says that the entry with the
    native string [k] and the value [v] is stored.  Keys that compare equal
    are one key for the code, so a Path Map of the code never holds two of
    them ([path_map_wf]); it is searched with [path_find] and extended with
    [path_emplace]. *)
Abbreviation PathMap := (gmap string string).

Definition key_le (a b : string * string) : Prop :=
  FsPath.le a.1 b.1 = true.

#[global] Instance key_le_dec : RelDecision key_le.
Proof. intros a b. unfold key_le. apply _. Defined.

(** The range [begin(), end())]: the entries in ascending key order. *)
Definition path_map_entries (m : PathMap) : list (string * string) :=
  merge_sort key_le (map_to_list m).

(** [lower_bound(k)]: the range from the first entry whose key is not less
    than [k] to [end()]. *)
Fixpoint lower_bound_from (k : string) (l : list (string * string))
  : list (string * string) :=
  match l with
  | [] => []
  | e :: rest => if FsPath.lt e.1 k then lower_bound_from k rest else l
  end.

Definition lower_bound (m : PathMap) (k : string) : list (string * string) :=
  lower_bound_from k (path_map_entries m).

(** The entry of the Path Map whose key is the path [k], if there is
    one: what [find(k)] points to, and what keeps [emplace(k, ...)] from
    inserting. *)
Definition path_find (k : string) (m : PathMap) : option (string * string) :=
  List.find (fun e => FsPath.equivalent e.1 k) (path_map_entries m).

(** [emplace(k, v)] of the Path Map: inserts only when no stored key is
    the path [k]; the flag is [res.second]. *)
Definition path_emplace (k v : string) (m : PathMap) : PathMap * bool :=
  match path_find k m with
  | Some _ => (m, false)
  | None => (<[k := v]> m, true)
  end.

(** No two stored keys are the same path. *)
Definition path_map_wf (m : PathMap) : Prop :=
  forall k1 k2 : string,
    is_Some (m !! k1) -> is_Some (m !! k2) ->
    FsPath.equivalent k1 k2 = true -> k1 = k2.

(** The keys as the comparison sees them. *)
Definition path_keys (m : PathMap) : gset (bool * list string) :=
  list_to_set (FsPath.path_key <$> (map_to_list m).*1).

(** [emplace(k, v)] of [std::unordered_map] with string keys: inserts only
    when the key is absent; the flag is [res.second]. *)
Definition emplace (k v : string) (m : gmap string string)
  : gmap string string * bool :=
  match m !! k with
  | Some _ => (m, false)
  | None => (<[k := v]> m, true)
  end.

(** ** The direct-children resolver *)

Definition PREFIX_PATH_FILE_NAME : string := "prefix.path".

Record RelativePathWithMetadata := { relative_path : string }.

(** The first loop of [getDirectChildrenOnRewritableDisk], from the
    iterator [it] on; [break] returns the table, [continue] goes on with
    the rest. *)
Fixpoint scan_local_path_prefixes (local_path : string)
    (it : list (string * string))
    (remote_to_local_subdir : gmap string string) : gmap string string :=
  match it with
  | [] => remote_to_local_subdir
  | (k, v) :: rest =>
      if negb (StdString.starts_with k local_path) then
        remote_to_local_subdir
      else if negb (Nat.eqb (StdString.count_from (StdString.size local_path) k "/") 1) then
        scan_local_path_prefixes local_path rest remote_to_local_subdir
      else
        scan_local_path_prefixes local_path rest
          (emplace v (StdString.range_drop_last (StdString.size local_path) k)
             remote_to_local_subdir).1
  end.

(** [chassert(k.back() == '/')] *)
Definition chassert_back_is_sep (k : string) : bool :=
  bool_decide (StdString.back k = Some "/"%char).

(** [chassert(path.find(storage_key) == 0)] *)
Definition chassert_under_storage_key (storage_key path : string) : bool :=
  StdString.starts_with path storage_key.

Definition skip_list : gset string := {[ PREFIX_PATH_FILE_NAME ]}.

(** The body of the second loop, for one element of [remote_paths]. *)
Definition visit_remote_path (storage_key : string)
    (remote_to_local_subdir : gmap string string)
    (duplicates_filter : gset string) (elem : RelativePathWithMetadata)
  : Result (gset string) :=
  let path := relative_path elem in
  let child_pos := StdString.size storage_key in
  match StdString.find "/" path child_pos with
  | None =>
      (* File names. *)
      bindR (StdString.substr path child_pos None) (fun filename =>
        if bool_decide (filename ∈ skip_list) then Ok duplicates_filter
        else Ok ({[ filename ]} ∪ duplicates_filter))
  | Some slash_pos =>
      (* Subdirectories. *)
      bindR (StdString.substr path 0 (Some slash_pos)) (fun remote_subdir =>
        match remote_to_local_subdir !! remote_subdir with
        | Some local_subdir =>
            (* Mapped subdirectories. *)
            Ok ({[ local_subdir ]} ∪ duplicates_filter)
        | None =>
            (* The remote subdirectory name is the same as the local subdirectory. *)
            bindR (StdString.substr path child_pos (Some (slash_pos - child_pos)))
              (fun name => Ok ({[ name ]} ∪ duplicates_filter))
        end)
  end.

Fixpoint visit_remote_paths (storage_key : string)
    (remote_to_local_subdir : gmap string string)
    (remote_paths : list RelativePathWithMetadata)
    (duplicates_filter : gset string) : Result (gset string) :=
  match remote_paths with
  | [] => Ok duplicates_filter
  | elem :: rest =>
      bindR (visit_remote_path storage_key remote_to_local_subdir duplicates_filter elem)
        (visit_remote_paths storage_key remote_to_local_subdir rest)
  end.

Definition build_remote_to_local_subdir (local_path : string)
    (local_path_prefixes : PathMap) : gmap string string :=
  scan_local_path_prefixes local_path
    (lower_bound local_path_prefixes local_path) ∅.

(** The returned vector lists the elements of the [std::unordered_set] in
    an unspecified order: statements about it are up to permutation. *)
Definition getDirectChildrenOnRewritableDisk (storage_key : string)
    (remote_paths : list RelativePathWithMetadata) (local_path : string)
    (local_path_prefixes : PathMap) : Result (list string) :=
  let remote_to_local_subdir :=
    build_remote_to_local_subdir local_path local_path_prefixes in
  bindR (visit_remote_paths storage_key remote_to_local_subdir remote_paths ∅)
    (fun duplicates_filter => Ok (elements duplicates_filter)).

(** The classification of one listed entry in the words of the
    specification: the key suffix after the storage key names a file when
    it has no separator (the marker is skipped), and a subdirectory
    otherwise, under its local name when the key up to that separator is in
    the table and under its remote name when it is not. *)
Definition spec_child_name (storage_key : string)
    (table : gmap string string) (path : string) : option string :=
  let suffix := StdString.drop (StdString.size storage_key) path in
  match StdString.find "/" suffix 0 with
  | None =>
      if String.eqb suffix PREFIX_PATH_FILE_NAME then None else Some suffix
  | Some i =>
      match table !! (StdString.take (StdString.size storage_key + i) path) with
      | Some local_subdir => Some local_subdir
      | None => Some (StdString.take i suffix)
      end
  end.

Definition spec_child_names (storage_key : string)
    (table : gmap string string) (remote_paths : list RelativePathWithMetadata)
  : list string :=
  omap (fun e => spec_child_name storage_key table (relative_path e)) remote_paths.

(** The entries on which the first loop gets past its [break] test, from
    the iterator [it] on. *)
Fixpoint visited_entries (local_path : string) (it : list (string * string))
  : list (string * string) :=
  match it with
  | [] => []
  | (k, v) :: rest =>
      if negb (StdString.starts_with k local_path) then []
      else (k, v) :: visited_entries local_path rest
  end.

(** [slash_num == 1] *)
Definition is_direct_child (local_path : string) (e : string * string) : bool :=
  Nat.eqb (StdString.count_from (StdString.size local_path) e.1 "/") 1.

Definition child_name (local_path k : string) : string :=
  StdString.range_drop_last (StdString.size local_path) k.

Definition add_subdir (local_path : string) (table : gmap string string)
    (e : string * string) : gmap string string :=
  (emplace e.2 (child_name local_path e.1) table).1.

(** The entries of the Path Map that are directories directly under
    [local_path], in key order. *)
Definition direct_children_entries (local_path : string) (m : PathMap)
  : list (string * string) :=
  List.filter
    (fun e => StdString.starts_with e.1 local_path && is_direct_child local_path e)
    (path_map_entries m).

(** ** Effects: the metric, the log and the calls on the object storage *)

Inductive Event :=
| EvIterate (root : string)                          (* object_storage->iterate(root, 0) *)
| EvReadObject (path : string)                       (* object_storage->readObject(object, settings) *)
| EvLogWarning (local_path mapped ignored : string)  (* LOG_WARNING(log, ...) *)
| EvMetricAdd (n : nat)                              (* CurrentMetrics::add(metric, n) *)
| EvMetricSub (n : nat)                              (* CurrentMetrics::sub(metric, n) *)
| EvSetKeysGenerator (key_prefix : string).          (* object_storage->setKeysGenerator(...) *)

#[global] Instance Event_eq_dec : EqDecision Event.
Proof. solve_decision. Defined.

(** [directory_map_size] is the value of the metric; [trace] lists the
    events oldest first. *)
Record World := { directory_map_size : Z; trace : list Event }.

Definition M (A : Type) : Type := World -> Result A * World.

Definition ret {A} (a : A) : M A := fun w => (Ok a, w).

Definition raise {A} (e : Exception) : M A := fun w => (Throw e, w).

Definition bind {A B} (m : M A) (k : A -> M B) : M B :=
  fun w =>
    match m w with
    | (Ok a, w') => k a w'
    | (Throw e, w') => (Throw e, w')
    end.

Declare Scope world_scope.
Delimit Scope world_scope with world.
Notation "x <- m ;; k" := (bind m (fun x => k))
  (at level 63, m at next level, right associativity) : world_scope.
Notation "m ;;; k" := (bind m (fun _ => k))
  (at level 63, right associativity) : world_scope.

Definition emit (ev : Event) : M unit :=
  fun w => (Ok tt, {| directory_map_size := directory_map_size w;
                      trace := trace w ++ [ev] |}).

Definition CurrentMetrics_add (n : nat) : M unit :=
  fun w => (Ok tt, {| directory_map_size := directory_map_size w + Z.of_nat n;
                      trace := trace w ++ [EvMetricAdd n] |}).

Definition CurrentMetrics_sub (n : nat) : M unit :=
  fun w => (Ok tt, {| directory_map_size := directory_map_size w - Z.of_nat n;
                      trace := trace w ++ [EvMetricSub n] |}).

(** ** The object storage and the thread pool

    [IObjectStorage] and the I/O thread pool are collaborators whose code
    is not in the file: they are taken as parameters.  [iterate root] is
    the key listing under [root], [readObject path] the whole body of the
    object ([readStringUntilEOF]) or the exception the read throws. *)
Record ObjectStorage := {
  getName : string;
  getCommonKeyPrefix : string;
  isWriteOnce : bool;
  iterate : string -> list string;
  readObject : string -> Result string
}.

(** The units of work given to the runner touch the shared state in one
    step each (the insertion under the mutex and the warning that follows
    it), so a concurrent run is one sequential run of the units in the
    order in which they take that step.  [schedule] gives this order for
    the units in submission order. *)
Record ThreadPool := { schedule : list string -> list string }.

Definition fair (pool : ThreadPool) : Prop :=
  forall tasks, schedule pool tasks ≡ₚ tasks.

(** ** The marker-file loader *)

Section Loader.

(** The build flag of the [#if USE_AWS_S3] block. *)
Variable USE_AWS_S3 : bool.
Variable pool : ThreadPool.

(** [chassert(remote_path.has_parent_path())] *)
Definition chassert_has_parent_path (remote_path : string) : bool :=
  FsPath.has_parent_path remote_path.

(** The [try] block of a unit of work: what the unit does with the
    result of the read.  [None] is the [return] of the handler, that is
    the unit ends without an insertion. *)
Definition read_local_path (object_storage : ObjectStorage) (path : string)
  : M (option string) :=
  (emit (EvReadObject path) ;;;
   match readObject object_storage path with
   | Ok local_path => ret (Some local_path)
   | Throw (S3Exception code) =>
       if USE_AWS_S3 then
         (* It is ok if a directory was removed just now. *)
         if bool_decide (code = NO_SUCH_KEY) then ret None
         else raise (S3Exception code)
       else raise (S3Exception code)
   | Throw e => raise e
   end)%world.

(** One unit of work, the lambda given to [runner].  [result] is the map
    captured by reference: the unit returns its new value. *)
Definition load_unit (object_storage : ObjectStorage) (path : string)
    (result : PathMap) : M PathMap :=
  (let remote_path := path in
   read <- read_local_path object_storage path ;;
   match read with
   | None => ret result
   | Some local_path =>
       let res := path_emplace local_path (FsPath.parent_path remote_path) result in
       if res.2 then ret res.1
       else
         emit (EvLogWarning local_path
                 (default "" (snd <$> path_find local_path res.1))
                 (FsPath.parent_path remote_path)) ;;;
         ret res.1
   end)%world.

(** Modelled from the spec: the runner ([ThreadPoolCallbackRunnerLocal])
    is not among the sources.  "There is no mechanism to cancel
    already-dispatched units early": every unit runs, whatever the others
    do.  A unit that throws leaves the shared map as it was (the only
    throwing call, the read, comes before the insertion) and its exception
    in its future.  The futures are returned in the order of the run. *)
Fixpoint run_units (object_storage : ObjectStorage) (units : list string)
    (result : PathMap) (w : World)
  : list (Result unit) * PathMap * World :=
  match units with
  | [] => ([], result, w)
  | path :: rest =>
      match load_unit object_storage path result w with
      | (Ok result', w') =>
          let '(futures, r, w'') := run_units object_storage rest result' w' in
          (Ok tt :: futures, r, w'')
      | (Throw e, w') =>
          let '(futures, r, w'') := run_units object_storage rest result w' in
          (Throw e :: futures, r, w'')
      end
  end.

(** Modelled from the spec: [waitForAllToFinishAndRethrowFirstError]
    belongs to the thread-pool runner, which is not among the sources.
    Once every unit has finished, "the first fatal error (if any) is
    re-raised to the caller" and "later failures are suppressed once the
    first is recorded". *)
Fixpoint waitForAllToFinishAndRethrowFirstError (futures : list (Result unit))
  : M unit :=
  match futures with
  | [] => ret tt
  | Ok _ :: rest => waitForAllToFinishAndRethrowFirstError rest
  | Throw e :: _ => raise e
  end.

Definition is_marker_key (path : string) : bool :=
  String.eqb (FsPath.filename path) PREFIX_PATH_FILE_NAME.

(** The keys for which the scan loop does not [continue]. *)
Definition scheduled_units (object_storage : ObjectStorage) (root : string)
  : list string :=
  List.filter is_marker_key (iterate object_storage root).

(** The loader.  The [LOG_DEBUG] lines and [num_files], which only feeds
    them, are left out. *)
Definition loadPathPrefixMap (root : string) (object_storage : ObjectStorage)
  : M PathMap :=
  (emit (EvIterate root) ;;;
   (fun w =>
      let '(futures, result, w') :=
        run_units object_storage
          (schedule pool (scheduled_units object_storage root)) ∅ w in
      (waitForAllToFinishAndRethrowFirstError futures ;;;
       CurrentMetrics_add (size result) ;;;
       ret result) w'))%world.

(** ** Construction and destruction *)

Record MetadataStorageFromPlainRewritableObjectStorage := {
  object_storage : ObjectStorage;
  storage_path_prefix : string;
  path_map : PathMap
}.

Definition write_once_message (name : string) : string :=
  "MetadataStorageFromPlainRewritableObjectStorage is not compatible with write-once storage '"
    +:+ name +:+ "'".

(** The constructor: the member initialisers run first ([path_map] is
    initialised with the loaded map), then the body. *)
Definition construct (object_storage_ : ObjectStorage)
    (storage_path_prefix_ : string)
  : M MetadataStorageFromPlainRewritableObjectStorage :=
  (path_map_ <- loadPathPrefixMap (getCommonKeyPrefix object_storage_) object_storage_ ;;
   if isWriteOnce object_storage_ then
     raise (LOGICAL_ERROR (write_once_message (getName object_storage_)))
   else
     emit (EvSetKeysGenerator (getCommonKeyPrefix object_storage_)) ;;;
     ret {| object_storage := object_storage_;
            storage_path_prefix := storage_path_prefix_;
            path_map := path_map_ |})%world.

(** The destructor. *)
Definition destroy (this : MetadataStorageFromPlainRewritableObjectStorage)
  : M unit :=
  CurrentMetrics_sub (size (path_map this)).

Definition getDirectChildrenOnDisk
    (this : MetadataStorageFromPlainRewritableObjectStorage)
    (storage_key : string) (remote_paths : list RelativePathWithMetadata)
    (local_path : string) : Result (list string) :=
  getDirectChildrenOnRewritableDisk storage_key remote_paths local_path
    (path_map this).

End Loader.

(** ** A run of the loader, unit by unit

    What one unit leaves behind is a function of the result of its read
    and of the map it finds: the map after it, its future and the events
    it emits. *)

Definition tolerated (USE_AWS_S3 : bool) (e : Exception) : bool :=
  USE_AWS_S3 && bool_decide (e = S3Exception NO_SUCH_KEY).

Definition unit_result (object_storage : ObjectStorage) (path : string)
    (result : PathMap) : PathMap :=
  match readObject object_storage path with
  | Ok local_path => (path_emplace local_path (FsPath.parent_path path) result).1
  | Throw _ => result
  end.

Definition unit_future (USE_AWS_S3 : bool) (object_storage : ObjectStorage)
    (path : string) : Result unit :=
  match readObject object_storage path with
  | Ok _ => Ok tt
  | Throw e => if tolerated USE_AWS_S3 e then Ok tt else Throw e
  end.

Definition unit_events (object_storage : ObjectStorage) (path : string)
    (result : PathMap) : list Event :=
  EvReadObject path ::
  match readObject object_storage path with
  | Ok local_path =>
      match path_find local_path result with
      | Some (_, mapped) =>
          [EvLogWarning local_path mapped (FsPath.parent_path path)]
      | None => []
      end
  | Throw _ => []
  end.

Definition units_result (object_storage : ObjectStorage) (units : list string)
    (result : PathMap) : PathMap :=
  foldl (fun m path => unit_result object_storage path m) result units.

Fixpoint units_events (object_storage : ObjectStorage) (units : list string)
    (result : PathMap) : list Event :=
  match units with
  | [] => []
  | path :: rest =>
      unit_events object_storage path result
      ++ units_events object_storage rest (unit_result object_storage path result)
  end.

Fixpoint first_error (futures : list (Result unit)) : option Exception :=
  match futures with
  | [] => None
  | Ok _ :: rest => first_error rest
  | Throw e :: _ => Some e
  end.

(** The local paths read from the markers, in the order of the units. *)
Definition local_paths (object_storage : ObjectStorage) (units : list string)
  : list string :=
  omap (fun path => match readObject object_storage path with
                    | Ok local_path => Some local_path
                    | Throw _ => None
                    end) units.

(** The first unit of a run whose marker carries the path [local_path]. *)
Definition first_unit_for (object_storage : ObjectStorage) (units : list string)
    (local_path : string) : option string :=
  List.find (fun path => match readObject object_storage path with
                         | Ok q => FsPath.equivalent q local_path
                         | Throw _ => false
                         end)
    units.

(** The entry that the marker at [key] asks for. *)
Definition marker_entry (object_storage : ObjectStorage) (key : string)
  : option (string * string) :=
  match readObject object_storage key with
  | Ok local_path => Some (local_path, FsPath.parent_path key)
  | Throw _ => None
  end.

(** The read failures that are not the tolerated one, in the order of the
    units. *)
Definition fatal_errors (object_storage : ObjectStorage) (units : list string)
  : list Exception :=
  omap (fun path => match readObject object_storage path with
                    | Ok _ => None
                    | Throw e =>
                        if bool_decide (e = S3Exception NO_SUCH_KEY) then None
                        else Some e
                    end) units.

(** The events of the scan of the key space: the listing and the reads. *)
Definition is_scan_event (ev : Event) : bool :=
  match ev with
  | EvIterate _ | EvReadObject _ => true
  | _ => false
  end.

Definition is_warning (ev : Event) : bool :=
  match ev with EvLogWarning _ _ _ => true | _ => false end.

Definition is_metric_event (ev : Event) : bool :=
  match ev with EvMetricAdd _ | EvMetricSub _ => true | _ => false end.

Definition add_trace (w : World) (events : list Event) : World :=
  {| directory_map_size := directory_map_size w; trace := trace w ++ events |}.

Definition world0 : World := {| directory_map_size := 0; trace := [] |}.

(** ** Sample inputs *)

Definition remote_entry (path : string) : RelativePathWithMetadata :=
  {| relative_path := path |}.

(** The example of the specification: the listing of the directory whose
    storage key is [prefix], and a Path Map with two subdirectories of
    ["/a/"] whose remote prefixes are the keys [prefix ++ "p1"] and
    [prefix ++ "p2"] of that listing. *)
Definition example_listing (prefix : string) : list RelativePathWithMetadata :=
  [ remote_entry (prefix +:+ "p1/file1");
    remote_entry (prefix +:+ "p2/file2");
    remote_entry (prefix +:+ "top.txt");
    remote_entry (prefix +:+ "prefix.path") ].

Definition example_path_map (prefix : string) : PathMap :=
  <[ "/a/c/" := prefix +:+ "p2" ]> (<[ "/a/b/" := prefix +:+ "p1" ]> ∅).

(** A pool that runs the units in submission order, and one that runs
    them in the reverse order. *)
Definition fifo_pool : ThreadPool := {| schedule := fun units => units |}.
Definition lifo_pool : ThreadPool := {| schedule := @rev string |}.

(** An object storage given by the list of its objects, in listing order,
    each with what reading it gives. *)
Fixpoint read_in (objects : list (string * Result string)) (path : string)
  : Result string :=
  match objects with
  | [] => Throw (S3Exception NO_SUCH_KEY)
  | (key, outcome) :: rest =>
      if String.eqb key path then outcome else read_in rest path
  end.

Definition storage_of (write_once : bool)
    (objects : list (string * Result string)) : ObjectStorage :=
  {| getName := "disk";
     getCommonKeyPrefix := "root/";
     isWriteOnce := write_once;
     iterate := fun root =>
       List.filter (fun key => StdString.starts_with key root) (map fst objects);
     readObject := read_in objects |}.

(** Two directories and a data file. *)
Definition plain_objects : list (string * Result string) :=
  [ ("root/d1/prefix.path", Ok "/a/");
    ("root/d1/data.bin", Ok "0123");
    ("root/d2/prefix.path", Ok "/a/b/") ].

(** Two replicas wrote a marker for the same local path. *)
Definition replicated_objects : list (string * Result string) :=
  [ ("root/d1/prefix.path", Ok "/a/");
    ("root/d2/prefix.path", Ok "/a/b/");
    ("root/d3/prefix.path", Ok "/a/") ].

(** A directory is removed during the scan. *)
Definition racy_objects : list (string * Result string) :=
  [ ("root/d1/prefix.path", Ok "/a/");
    ("root/d2/prefix.path", Throw (S3Exception NO_SUCH_KEY));
    ("root/d3/prefix.path", Ok "/c/") ].

(** Two reads fail for good. *)
Definition failing_objects : list (string * Result string) :=
  [ ("root/d1/prefix.path", Ok "/a/");
    ("root/d2/prefix.path", Throw (OtherException "timeout"));
    ("root/d3/prefix.path", Throw (S3Exception ACCESS_DENIED)) ].

(** Two markers whose local paths differ as strings and are one path. *)
Definition aliased_objects : list (string * Result string) :=
  [ ("root/d1/prefix.path", Ok "/a/b/");
    ("root/d2/prefix.path", Ok "/a//b/") ].


(** A Path Map with a directory, two of its subdirectories, a deeper
    descendant, and two keys outside of it. *)
Definition nested_path_map : PathMap :=
  list_to_map [ ("/", "r"); ("/a.b/", "x"); ("/a/", "q"); ("/a/b/", "p1");
                ("/a/b/c/", "y"); ("/a/c/", "p2") ].

(** ** Observations on a trace *)

(** The keys of the objects that were read, oldest first. *)
Definition reads_of (events : list Event) : list string :=
  omap (fun ev => match ev with EvReadObject path => Some path | _ => None end)
    events.

Definition is_keys_generator_event (ev : Event) : bool :=
  match ev with EvSetKeysGenerator _ => true | _ => false end.

(** A listed key is long enough for [substr(child_pos)]. *)
Definition long_enough (storage_key : string) (e : RelativePathWithMetadata) : Prop :=
  StdString.size storage_key <= StdString.size (relative_path e).

#[global] Instance long_enough_dec (storage_key : string) (e : RelativePathWithMetadata) :
  Decision (long_enough storage_key e).
Proof. unfold long_enough. apply _. Defined.

(** The exceptions thrown by the reads of the units, in their order. *)
Definition read_failures (object_storage : ObjectStorage) (units : list string)
  : list Exception :=
  omap (fun path => match readObject object_storage path with
                    | Ok _ => None
                    | Throw e => Some e
                    end) units.

(** * Properties *)

(** ** The library models on small inputs *)

Example filename_marker : FsPath.filename "root/abc/prefix.path" = "prefix.path".
Proof. reflexivity. Qed.
Example filename_trailing : FsPath.filename "root/abc/" = "".
Proof. reflexivity. Qed.
Example parent_nested : FsPath.parent_path "root/abc/prefix.path" = "root/abc".
Proof. reflexivity. Qed.
Example parent_double_sep : FsPath.parent_path "root//prefix.path" = "root".
Proof. reflexivity. Qed.
Example parent_of_top : FsPath.parent_path "/prefix.path" = "/".
Proof. reflexivity. Qed.
Example parent_of_bare : FsPath.parent_path "prefix.path" = "".
Proof. reflexivity. Qed.
Example parent_trailing : FsPath.parent_path "a/b/" = "a/b".
Proof. reflexivity. Qed.
Example find_after : StdString.find "/" "p1/file1" 1 = Some 2.
Proof. reflexivity. Qed.
Example find_past : StdString.find "/" "p1/file1" 5 = None.
Proof. reflexivity. Qed.
Example substr_throws : StdString.substr "ab" 3 None = Throw OutOfRange.
Proof. reflexivity. Qed.
Example substr_end : StdString.substr "ab" 2 None = Ok "".
Proof. reflexivity. Qed.
Example elements_directory : FsPath.elements "/a/b/" = ["a"; "b"; ""].
Proof. reflexivity. Qed.
Example elements_doubled_sep : FsPath.elements "//a//b/" = ["a"; "b"; ""].
Proof. reflexivity. Qed.
Example elements_of_root : FsPath.elements "/" = [].
Proof. reflexivity. Qed.
Example elements_of_relative : FsPath.elements "a/b" = ["a"; "b"].
Proof. reflexivity. Qed.
Example compare_doubled_sep : FsPath.compare "/a/b/" "/a//b/" = Eq.
Proof. reflexivity. Qed.
Example compare_trailing_sep : FsPath.compare "/a/b" "/a/b/" = Lt.
Proof. reflexivity. Qed.
Example compare_by_element : FsPath.compare "/a/b/" "/a/b.c/" = Lt.
Proof. reflexivity. Qed.
Example compare_relative_first : FsPath.compare "z" "/a" = Lt.
Proof. reflexivity. Qed.

(** ** Strings *)

Section StringFacts.

Import StdString.

Lemma append_cons (c : ascii) (a b : string) :
  String c a +:+ b = String c (a +:+ b).
Proof. reflexivity. Qed.

Lemma append_empty (b : string) : "" +:+ b = b.
Proof. reflexivity. Qed.

Lemma str_size_append (a b : string) : size (a +:+ b) = size a + size b.
Proof.
  induction a as [|c a IH]; [done|].
  rewrite append_cons. simpl. by rewrite IH.
Qed.

Lemma str_drop_0 (s : string) : drop 0 s = s.
Proof. by destruct s. Qed.

Lemma str_drop_all (s : string) (n : nat) : size s <= n -> drop n s = "".
Proof.
  revert n. induction s as [|c s IH]; intros [|n] Hn; simpl in *; try done; try lia.
  apply IH. lia.
Qed.

Lemma str_drop_append (a b : string) : drop (size a) (a +:+ b) = b.
Proof.
  induction a as [|c a IH]; [apply str_drop_0|].
  rewrite append_cons. exact IH.
Qed.

Lemma str_take_append (a b : string) (i : nat) :
  take (size a + i) (a +:+ b) = a +:+ take i b.
Proof.
  induction a as [|c a IH]; [done|].
  rewrite !append_cons. simpl. by rewrite IH.
Qed.

Lemma str_take_drop (s : string) (n : nat) : take n s +:+ drop n s = s.
Proof.
  revert n. induction s as [|c s IH]; intros [|n]; simpl; try done.
  rewrite append_cons. f_equal. apply IH.
Qed.

Lemma str_size_take (s : string) (n : nat) : n <= size s -> size (take n s) = n.
Proof.
  revert n. induction s as [|c s IH]; intros [|n] Hn; simpl in *; try done; try lia.
  rewrite IH; lia.
Qed.

Lemma starts_with_append (a b : string) : starts_with (a +:+ b) a = true.
Proof.
  induction a as [|c a IH]; [done|].
  rewrite append_cons. simpl. by rewrite Ascii.eqb_refl.
Qed.

Lemma starts_with_split (k p : string) :
  starts_with k p = true -> k = p +:+ drop (size p) k.
Proof.
  revert k. induction p as [|c p IH]; intros k H; simpl in *.
  - reflexivity.
  - destruct k as [|d k]; [done|].
    apply andb_prop in H as [Hc H]. apply Ascii.eqb_eq in Hc as ->.
    rewrite append_cons. f_equal. by apply IH.
Qed.

Lemma starts_with_size (k p : string) :
  starts_with k p = true -> size p <= size k.
Proof.
  intros H. rewrite (starts_with_split _ _ H), str_size_append. lia.
Qed.

Lemma find_bounds (c : ascii) (s : string) (pos i : nat) :
  find c s pos = Some i -> pos <= i < size s.
Proof.
  revert pos i. induction s as [|a s IH]; intros pos i H; simpl in *; [done|].
  destruct pos as [|pos].
  - destruct (Ascii.eqb a c); [injection H as <-; lia|].
    destruct (find c s 0) as [j|] eqn:Hj; simpl in H; [|done].
    injection H as <-. apply IH in Hj. lia.
  - destruct (find c s pos) as [j|] eqn:Hj; simpl in H; [|done].
    injection H as <-. apply IH in Hj. lia.
Qed.

(** Searching from [pos] is searching the suffix that starts at [pos]. *)
Lemma find_drop (c : ascii) (s : string) (pos : nat) :
  find c s pos = (fun i => pos + i) <$> find c (drop pos s) 0.
Proof.
  revert pos. induction s as [|a s IH]; intros [|pos]; simpl; try done.
  - destruct (Ascii.eqb a c); [done|]. by destruct (find c s 0).
  - rewrite IH. by destruct (find c (drop pos s) 0).
Qed.

Lemma str_take_take_drop (s : string) (p i : nat) :
  p <= size s -> take (p + i) s = take p s +:+ take i (drop p s).
Proof.
  intros Hp. pose proof (str_take_append (take p s) (drop p s) i) as H.
  by rewrite str_take_drop, (str_size_take s p Hp) in H.
Qed.

Lemma str_count_append (c : ascii) (a b : string) :
  count c (a +:+ b) = count c a + count c b.
Proof.
  induction a as [|d a IH]; [done|].
  rewrite append_cons. simpl. rewrite IH. lia.
Qed.

Lemma back_split (s : string) (c : ascii) :
  back s = Some c -> s = take (size s - 1) s +:+ String c "".
Proof.
  induction s as [|a s IH]; [done|]. simpl.
  destruct s as [|b s]; [by intros [= ->]|].
  intros H. specialize (IH H). simpl in IH. rewrite Nat.sub_0_r in IH.
  rewrite Nat.sub_0_r. change (size (String b s)) with (S (size s)).
  change (take (S (size s)) (String a (String b s)))
    with (String a (take (size s) (String b s))).
  rewrite append_cons. by f_equal.
Qed.

Lemma back_drop (s : string) (n : nat) :
  n < size s -> back (drop n s) = back s.
Proof.
  revert n. induction s as [|a s IH]; intros [|n] Hn; simpl in *; try done; try lia.
  rewrite IH by lia. destruct s; [simpl in Hn; lia | done].
Qed.

Lemma str_size_drop (s : string) (n : nat) : size (drop n s) = size s - n.
Proof. revert n. induction s as [|a s IH]; intros [|n]; simpl; try done. Qed.

End StringFacts.

(** ** Paths *)

Section PathFacts.

Import FsPath.

Lemma has_sep_cons (c : ascii) (p : string) :
  has_sep (String c p) = is_sep c || has_sep p.
Proof.
  unfold has_sep, is_sep. simpl.
  destruct (Ascii.eqb c "/"); [done|].
  by destruct (StdString.find "/" p 0).
Qed.

Lemma rsplit_append (p : string) : (rsplit p).1 +:+ (rsplit p).2 = p.
Proof.
  induction p as [|c p IH]; [done|]. simpl.
  destruct (rsplit p) as [[|d0 d] f] eqn:E; simpl in *.
  - destruct (is_sep c); simpl; rewrite ?append_cons, ?append_empty;
      by rewrite append_empty in IH; subst.
  - by rewrite !append_cons, <- IH, append_cons.
Qed.

Lemma rsplit_dir_nonempty (p : string) :
  has_sep p = true -> (rsplit p).1 <> "".
Proof.
  induction p as [|c p IH]; [done|].
  rewrite has_sep_cons. simpl.
  destruct (rsplit p) as [[|d0 d] f] eqn:E; simpl in *; [|done].
  destruct (is_sep c); simpl; [done|].
  intros H. by apply IH in H.
Qed.

Lemma rsplit_dir_empty (p : string) :
  has_sep p = false -> rsplit p = ("", p).
Proof.
  induction p as [|c p IH]; [done|].
  rewrite has_sep_cons. intros [Hc Hp]%orb_false_elim. simpl.
  by rewrite (IH Hp), Hc.
Qed.

(** The final component is free of separators. *)
Lemma filename_no_sep (p : string) : has_sep (filename p) = false.
Proof.
  unfold filename. induction p as [|c p IH]; [done|]. simpl.
  destruct (rsplit p) as [[|d0 d] f] eqn:E; simpl in *; [|done].
  destruct (is_sep c) eqn:Hc; simpl; [done|].
  by rewrite has_sep_cons, Hc, IH.
Qed.

Lemma parent_path_nonempty (p : string) :
  filename p <> "" -> has_sep p = true -> parent_path p <> "".
Proof.
  unfold filename, parent_path. intros Hf Hs.
  apply rsplit_dir_nonempty in Hs.
  destruct (rsplit p) as [d f]; simpl in *.
  destruct f as [|f0 f]; [done|].
  by destruct (rstrip_seps d).
Qed.

(** A key directly under the root of the key space has no parent. *)
Lemma parent_path_bare (p : string) :
  has_sep p = false -> p <> "" -> parent_path p = "".
Proof.
  intros Hs Hp. unfold parent_path. rewrite (rsplit_dir_empty _ Hs). simpl.
  by destruct p.
Qed.

End PathFacts.

(** ** The second loop of the resolver *)

Section ResolverFacts.

Import StdString.

Lemma substr_from (s : string) (pos : nat) :
  pos <= size s -> substr s pos None = Ok (drop pos s).
Proof.
  intros H. unfold substr.
  destruct (Nat.ltb_spec (size s) pos); [lia | done].
Qed.

Lemma substr_len (s : string) (pos len : nat) :
  pos <= size s -> substr s pos (Some len) = Ok (take len (drop pos s)).
Proof.
  intros H. unfold substr.
  destruct (Nat.ltb_spec (size s) pos); [lia | done].
Qed.

Lemma elem_of_skip_list (name : string) :
  name ∈ skip_list <-> String.eqb name PREFIX_PATH_FILE_NAME = true.
Proof.
  unfold skip_list. rewrite elem_of_singleton. symmetry. apply String.eqb_eq.
Qed.

(** One step of the loop does what the specification says, as soon as
    the entry is at least as long as the storage key. *)
Lemma visit_remote_path_spec (storage_key : string)
    (table : gmap string string) (seen : gset string) (path : string) :
  size storage_key <= size path ->
  visit_remote_path storage_key table seen {| relative_path := path |}
  = Ok (match spec_child_name storage_key table path with
        | Some name => {[ name ]} ∪ seen
        | None => seen
        end).
Proof.
  intros Hlen. unfold visit_remote_path, spec_child_name. simpl.
  rewrite find_drop.
  destruct (find "/" (drop (size storage_key) path) 0) as [i|] eqn:Hfind; simpl.
  - destruct (table !! take (size storage_key + i) path); [done|].
    rewrite substr_len by done. simpl.
    by replace (size storage_key + i - size storage_key) with i by lia.
  - rewrite substr_from by done. simpl.
    destruct (String.eqb _ PREFIX_PATH_FILE_NAME) eqn:E.
    + rewrite bool_decide_eq_true_2; [done|]. by apply elem_of_skip_list.
    + rewrite bool_decide_eq_false_2; [done|].
      rewrite elem_of_skip_list. congruence.
Qed.

Lemma visit_remote_path_throws (storage_key : string)
    (table : gmap string string) (seen : gset string) (path : string) :
  size path < size storage_key ->
  visit_remote_path storage_key table seen {| relative_path := path |}
  = Throw OutOfRange.
Proof.
  intros Hlen. unfold visit_remote_path. simpl.
  rewrite find_drop, str_drop_all by lia. simpl.
  unfold substr. destruct (Nat.ltb_spec (size path) (size storage_key)); [done | lia].
Qed.

Lemma visit_remote_paths_spec (storage_key : string)
    (table : gmap string string) (remote_paths : list RelativePathWithMetadata)
    (seen : gset string) :
  Forall (fun e => chassert_under_storage_key storage_key (relative_path e) = true)
    remote_paths ->
  visit_remote_paths storage_key table remote_paths seen
  = Ok (seen ∪ list_to_set (spec_child_names storage_key table remote_paths)).
Proof.
  intros Hall. revert seen.
  induction Hall as [|[path] rest Hpath _ IH]; intros seen; simpl.
  - f_equal. set_solver.
  - rewrite visit_remote_path_spec by (by apply starts_with_size).
    simpl. rewrite IH. unfold spec_child_names. simpl.
    destruct (spec_child_name storage_key table path); simpl; f_equal; set_solver.
Qed.

End ResolverFacts.

Section ResolverExample.

Import StdString.

Variable prefix : string.

Lemma example_entries :
  path_map_entries (example_path_map prefix)
  = [("/a/b/", prefix +:+ "p1"); ("/a/c/", prefix +:+ "p2")].
Proof. vm_compute. reflexivity. Qed.

Lemma example_table :
  build_remote_to_local_subdir "/a/" (example_path_map prefix)
  = <[ prefix +:+ "p2" := "c" ]> (<[ prefix +:+ "p1" := "b" ]> ∅).
Proof.
  unfold build_remote_to_local_subdir, lower_bound.
  rewrite example_entries. simpl.
  unfold emplace at 2. rewrite lookup_empty. simpl.
  unfold emplace. rewrite lookup_insert_ne, lookup_empty; [done|].
  intros H. by apply String.app_inj in H.
Qed.

Lemma example_child_p1 :
  spec_child_name prefix
    (build_remote_to_local_subdir "/a/" (example_path_map prefix)) (prefix +:+ "p1/file1") = Some "b".
Proof.
  unfold spec_child_name. rewrite str_drop_append, example_table. simpl.
  rewrite (str_take_append prefix "p1/file1" 2). simpl.
  rewrite lookup_insert_ne, lookup_insert_eq; [done|].
  intros H. by apply String.app_inj in H.
Qed.

Lemma example_child_p2 :
  spec_child_name prefix
    (build_remote_to_local_subdir "/a/" (example_path_map prefix)) (prefix +:+ "p2/file2") = Some "c".
Proof.
  unfold spec_child_name. rewrite str_drop_append, example_table. simpl.
  rewrite (str_take_append prefix "p2/file2" 2). simpl.
  by rewrite lookup_insert_eq.
Qed.

Lemma example_child_top :
  spec_child_name prefix
    (build_remote_to_local_subdir "/a/" (example_path_map prefix)) (prefix +:+ "top.txt") = Some "top.txt".
Proof. unfold spec_child_name. by rewrite str_drop_append. Qed.

Lemma example_child_marker :
  spec_child_name prefix
    (build_remote_to_local_subdir "/a/" (example_path_map prefix)) (prefix +:+ "prefix.path") = None.
Proof. unfold spec_child_name. by rewrite str_drop_append. Qed.

Lemma example_listing_under_key :
  Forall (fun e => chassert_under_storage_key prefix (relative_path e) = true)
    (example_listing prefix).
Proof.
  unfold example_listing, chassert_under_storage_key.
  repeat constructor; apply starts_with_append.
Qed.

Lemma example_child_names :
  spec_child_names prefix
    (build_remote_to_local_subdir "/a/" (example_path_map prefix))
    (example_listing prefix) = ["b"; "c"; "top.txt"].
Proof.
  unfold spec_child_names, example_listing, remote_entry. simpl.
  by rewrite example_child_p1, example_child_p2, example_child_top,
    example_child_marker.
Qed.

End ResolverExample.

(** C1.  When every listed key starts with the storage key, the resolver
    returns a list without duplicates whose members are exactly the names
    the specification gives to the listed entries: the key suffix when it
    has no separator and is not the marker name, and otherwise the local
    name of the table for the key up to the first separator, or the remote
    name up to that separator when the table has none.  On the listing and
    Path Map of the example it returns b, c and top.txt. *)
Theorem direct_children_classification :
  (forall (storage_key : string) (remote_paths : list RelativePathWithMetadata)
          (local_path : string) (local_path_prefixes : PathMap),
      Forall (fun e => chassert_under_storage_key storage_key (relative_path e) = true)
        remote_paths ->
      exists names : list string,
        getDirectChildrenOnRewritableDisk storage_key remote_paths local_path
          local_path_prefixes = Ok names
        /\ NoDup names
        /\ forall name : string,
            name ∈ names <->
            exists e, e ∈ remote_paths
              /\ spec_child_name storage_key
                   (build_remote_to_local_subdir local_path local_path_prefixes)
                   (relative_path e) = Some name)
  /\ (forall prefix : string,
        exists names : list string,
          getDirectChildrenOnRewritableDisk prefix (example_listing prefix) "/a/"
            (example_path_map prefix) = Ok names
          /\ names ≡ₚ ["b"; "c"; "top.txt"]).
Proof.
  split.
  - intros storage_key remote_paths local_path m Hall.
    unfold getDirectChildrenOnRewritableDisk.
    rewrite visit_remote_paths_spec by done. simpl.
    eexists. split; [reflexivity|]. split; [apply NoDup_elements|].
    intros name. rewrite elem_of_elements, elem_of_union, elem_of_list_to_set.
    unfold spec_child_names. rewrite list_elem_of_omap. set_solver.
  - intros prefix. unfold getDirectChildrenOnRewritableDisk.
    rewrite visit_remote_paths_spec by apply example_listing_under_key.
    rewrite example_child_names. simpl.
    eexists. split; [reflexivity|].
    apply NoDup_Permutation.
    + apply NoDup_elements.
    + apply (bool_decide_unpack _). vm_compute. exact I.
    + intros name. rewrite elem_of_elements. set_solver.
Qed.

Lemma direct_children_classification_witness :
  Forall (fun e => chassert_under_storage_key "root/" (relative_path e) = true)
    (example_listing "root/")
  /\ exists names : list string,
      getDirectChildrenOnRewritableDisk "root/" (example_listing "root/") "/a/"
        (example_path_map "root/") = Ok names
      /\ NoDup names
      /\ forall name : string,
          name ∈ names <->
          exists e, e ∈ example_listing "root/"
            /\ spec_child_name "root/"
                 (build_remote_to_local_subdir "/a/" (example_path_map "root/"))
                 (relative_path e) = Some name.
Proof.
  split.
  - repeat constructor.
  - apply (proj1 direct_children_classification). repeat constructor.
Defined.

(** C10.  When the listing has an entry whose key is the storage key
    itself, the names returned by the listing interface include the empty
    string: the empty name is not in the skip list. *)
Theorem empty_name_for_entry_equal_to_key
    (this : MetadataStorageFromPlainRewritableObjectStorage)
    (storage_key : string) (remote_paths : list RelativePathWithMetadata)
    (local_path : string) :
  Forall (fun e => chassert_under_storage_key storage_key (relative_path e) = true)
    remote_paths ->
  remote_entry storage_key ∈ remote_paths ->
  exists names : list string,
    getDirectChildrenOnDisk this storage_key remote_paths local_path = Ok names
    /\ "" ∈ names.
Proof.
  intros Hall Hin.
  unfold getDirectChildrenOnDisk, getDirectChildrenOnRewritableDisk.
  rewrite visit_remote_paths_spec by done. simpl.
  eexists. split; [reflexivity|].
  rewrite elem_of_elements, elem_of_union, elem_of_list_to_set. right.
  unfold spec_child_names. rewrite list_elem_of_omap.
  exists (remote_entry storage_key). split; [done|]. simpl.
  unfold spec_child_name. by rewrite str_drop_all.
Qed.

Lemma empty_name_for_entry_equal_to_key_witness :
  Forall (fun e => chassert_under_storage_key "root/d1/" (relative_path e) = true)
    [remote_entry "root/d1/"; remote_entry "root/d1/data.bin"]
  /\ remote_entry "root/d1/" ∈ [remote_entry "root/d1/"; remote_entry "root/d1/data.bin"]
  /\ exists names : list string,
      getDirectChildrenOnDisk
        {| object_storage := storage_of false plain_objects;
           storage_path_prefix := "";
           path_map := ∅ |}
        "root/d1/" [remote_entry "root/d1/"; remote_entry "root/d1/data.bin"] "/a/"
      = Ok names
      /\ "" ∈ names.
Proof.
  split; [repeat constructor|]. split; [apply list_elem_of_here|].
  apply empty_name_for_entry_equal_to_key; [repeat constructor | apply list_elem_of_here].
Defined.

(** C9.  A key the loader selects has a parent path as soon as it contains
    a separator, so the assertion before the insertion holds for it. *)
Theorem selected_key_has_parent_path
    (object_storage : ObjectStorage) (root key : string) :
  In key (scheduled_units object_storage root) ->
  FsPath.has_sep key = true ->
  chassert_has_parent_path key = true.
Proof.
  unfold scheduled_units, is_marker_key. intros [_ Hname]%filter_In Hsep.
  apply String.eqb_eq in Hname.
  unfold chassert_has_parent_path, FsPath.has_parent_path.
  apply negb_true_iff, String.eqb_neq, parent_path_nonempty; [|done].
  by rewrite Hname.
Qed.

Lemma selected_key_has_parent_path_witness :
  In "root/d2/prefix.path" (scheduled_units (storage_of false plain_objects) "root/")
  /\ FsPath.has_sep "root/d2/prefix.path" = true
  /\ chassert_has_parent_path "root/d2/prefix.path" = true.
Proof.
  split; [right; left; reflexivity|]. split; [reflexivity|].
  apply (selected_key_has_parent_path (storage_of false plain_objects) "root/");
    [right; left; reflexivity | reflexivity].
Defined.

(** ** The loader, unit by unit *)

Section LoaderFacts.

Variable USE_AWS_S3 : bool.
Variable pool : ThreadPool.
Variable os : ObjectStorage.

Lemma add_trace_nil (w : World) : add_trace w [] = w.
Proof. destruct w. unfold add_trace. simpl. by rewrite app_nil_r. Qed.

Lemma add_trace_app (w : World) (a b : list Event) :
  add_trace (add_trace w a) b = add_trace w (a ++ b).
Proof. unfold add_trace. simpl. by rewrite app_assoc. Qed.

Lemma emit_eq (ev : Event) (w : World) : emit ev w = (Ok tt, add_trace w [ev]).
Proof. reflexivity. Qed.

Lemma load_unit_eq (path : string) (m : PathMap) (w : World) :
  load_unit USE_AWS_S3 os path m w
  = (match unit_future USE_AWS_S3 os path with
     | Ok _ => Ok (unit_result os path m)
     | Throw e => Throw e
     end,
     add_trace w (unit_events os path m)).
Proof.
  unfold load_unit, read_local_path, unit_future, unit_result, unit_events,
    tolerated, bind, ret, raise.
  rewrite emit_eq.
  destruct (readObject os path) as [local_path|e]; simpl.
  - unfold path_emplace.
    destruct (path_find local_path m) as [[k mapped]|] eqn:E; simpl.
    + unfold emit, add_trace. simpl.
      by rewrite E, <- app_assoc.
    + reflexivity.
  - destruct e as [msg|code| |what]; simpl;
      destruct USE_AWS_S3; simpl; try reflexivity.
    destruct code; reflexivity.
Qed.

Lemma unit_result_of_failure (path : string) (m : PathMap) (e : Exception) :
  unit_future USE_AWS_S3 os path = Throw e -> unit_result os path m = m.
Proof.
  unfold unit_future, unit_result. by destruct (readObject os path).
Qed.

Lemma run_units_eq (units : list string) (m : PathMap) (w : World) :
  run_units USE_AWS_S3 os units m w
  = (map (unit_future USE_AWS_S3 os) units,
     units_result os units m,
     add_trace w (units_events os units m)).
Proof.
  revert m w. induction units as [|path rest IH]; intros m w; simpl.
  - by rewrite add_trace_nil.
  - rewrite load_unit_eq.
    destruct (unit_future USE_AWS_S3 os path) as [[]|e] eqn:E.
    + by rewrite IH, add_trace_app.
    + rewrite IH, add_trace_app.
      by rewrite (unit_result_of_failure path m e E).
Qed.

Lemma wait_eq (futures : list (Result unit)) (w : World) :
  waitForAllToFinishAndRethrowFirstError futures w
  = (match first_error futures with
     | Some e => Throw e
     | None => Ok tt
     end, w).
Proof.
  induction futures as [|[[]|e] rest IH]; simpl; try done.
Qed.

(** The loader in one equation. *)
Lemma loadPathPrefixMap_eq (root : string) (w : World) :
  let units := schedule pool (scheduled_units os root) in
  let result := units_result os units ∅ in
  let scanned := add_trace w (EvIterate root :: units_events os units ∅) in
  loadPathPrefixMap USE_AWS_S3 pool root os w
  = match first_error (map (unit_future USE_AWS_S3 os) units) with
    | Some e => (Throw e, scanned)
    | None =>
        (Ok result,
         {| directory_map_size := directory_map_size w + Z.of_nat (size result);
            trace := trace scanned ++ [EvMetricAdd (size result)] |})
    end.
Proof.
  intros units result scanned.
  unfold loadPathPrefixMap, bind. rewrite emit_eq, run_units_eq.
  fold units. fold result. rewrite add_trace_app. simpl. fold scanned.
  rewrite wait_eq. destruct (first_error _); reflexivity.
Qed.

Lemma units_events_reads (units : list string) (m : PathMap) (key : string) :
  key ∈ units -> EvReadObject key ∈ units_events os units m.
Proof.
  revert m. induction units as [|path rest IH]; intros m Hin; simpl.
  - by apply elem_of_nil in Hin.
  - apply elem_of_cons in Hin as [->|Hin].
    + apply list_elem_of_here.
    + apply list_elem_of_further, elem_of_app. right. by apply IH.
Qed.

Lemma units_events_no_metric (units : list string) (m : PathMap) :
  Forall (fun ev => is_metric_event ev = false) (units_events os units m).
Proof.
  revert m. induction units as [|path rest IH]; intros m; simpl; [constructor|].
  constructor; [done|]. apply Forall_app. split; [|apply IH].
  destruct (readObject os path) as [local_path|]; [|constructor].
  destruct (path_find local_path m) as [[k mapped]|]; repeat constructor.
Qed.

Lemma construct_eq (storage_path_prefix_ : string) (w : World) :
  construct USE_AWS_S3 pool os storage_path_prefix_ w
  = match loadPathPrefixMap USE_AWS_S3 pool (getCommonKeyPrefix os) os w with
    | (Throw e, w') => (Throw e, w')
    | (Ok loaded, w') =>
        if isWriteOnce os then
          (Throw (LOGICAL_ERROR (write_once_message (getName os))), w')
        else
          (Ok {| object_storage := os;
                 storage_path_prefix := storage_path_prefix_;
                 path_map := loaded |},
           add_trace w' [EvSetKeysGenerator (getCommonKeyPrefix os)])
    end.
Proof.
  unfold construct, bind.
  destruct (loadPathPrefixMap _ _ _ _ w) as [[loaded|e] w']; [|done].
  by destruct (isWriteOnce os).
Qed.

Lemma loader_trace (root : string) (w : World) :
  exists tail,
    trace (loadPathPrefixMap USE_AWS_S3 pool root os w).2
    = trace w ++ EvIterate root
        :: units_events os (schedule pool (scheduled_units os root)) ∅ ++ tail.
Proof.
  rewrite loadPathPrefixMap_eq.
  destruct (first_error _); simpl.
  - exists []. by rewrite app_nil_r.
  - eexists [_]. by rewrite <- app_assoc.
Qed.

End LoaderFacts.

(** C5, as the code has it.  On a write-once storage construction never
    succeeds, but the test is in the constructor body, which runs after the
    member initialiser has called the loader: the key space is listed and
    every scheduled marker is read first.  When the loader returns, the
    constructor throws LOGICAL_ERROR; when the loader throws, its exception
    is the one that leaves the constructor. *)
Theorem write_once_rejected_after_load
    (USE_AWS_S3 : bool) (pool : ThreadPool) (os : ObjectStorage)
    (storage_path_prefix_ : string) (w : World) :
  isWriteOnce os = true ->
  let loaded := loadPathPrefixMap USE_AWS_S3 pool (getCommonKeyPrefix os) os w in
  exists e : Exception,
    construct USE_AWS_S3 pool os storage_path_prefix_ w = (Throw e, loaded.2)
    /\ match loaded.1 with
       | Ok _ => e = LOGICAL_ERROR (write_once_message (getName os))
       | Throw e' => e = e'
       end
    /\ EvIterate (getCommonKeyPrefix os) ∈ trace loaded.2
    /\ forall key : string,
         key ∈ schedule pool (scheduled_units os (getCommonKeyPrefix os)) ->
         EvReadObject key ∈ trace loaded.2.
Proof.
  intros Hwo loaded. rewrite construct_eq. fold loaded.
  destruct (loader_trace USE_AWS_S3 pool os (getCommonKeyPrefix os) w) as [tail Htr].
  fold loaded in Htr.
  assert (Hscan : EvIterate (getCommonKeyPrefix os) ∈ trace loaded.2
    /\ forall key : string,
         key ∈ schedule pool (scheduled_units os (getCommonKeyPrefix os)) ->
         EvReadObject key ∈ trace loaded.2).
  { rewrite Htr. split.
    - apply elem_of_app. right. apply list_elem_of_here.
    - intros key Hkey. apply elem_of_app. right. apply list_elem_of_further.
      apply elem_of_app. left. by apply units_events_reads. }
  destruct loaded as [[m|e] w']; simpl in *.
  - rewrite Hwo. by eexists.
  - by eexists.
Qed.

Lemma write_once_rejected_after_load_witness :
  isWriteOnce (storage_of true plain_objects) = true
  /\ exists e : Exception,
      construct true fifo_pool (storage_of true plain_objects) "" world0
      = (Throw e, (loadPathPrefixMap true fifo_pool "root/"
                     (storage_of true plain_objects) world0).2)
      /\ e = LOGICAL_ERROR (write_once_message "disk").
Proof.
  split; [reflexivity|].
  destruct (write_once_rejected_after_load true fifo_pool
              (storage_of true plain_objects) "" world0 eq_refl)
    as (e & Hc & He & _).
  exists e. split; [exact Hc | exact He].
Defined.

(** C5, as the specification has it, fails: on a write-once storage with
    two markers the constructor throws LOGICAL_ERROR only after the listing
    and both reads. *)
Lemma write_once_scan_counterexample :
  isWriteOnce (storage_of true plain_objects) = true
  /\ ~ exists (message : string) (w' : World),
        construct true fifo_pool (storage_of true plain_objects) "" world0
        = (Throw (LOGICAL_ERROR message), w')
        /\ List.filter is_scan_event (trace w') = [].
Proof.
  split; [reflexivity|].
  intros (message & w' & Hc & Hscan).
  vm_compute in Hc. injection Hc as _ <-. discriminate Hscan.
Qed.

(** C7.  The claim fails on a write-once storage that holds markers: the
    loader has added the size of the map to the metric when the
    constructor body throws, and no destructor runs for an object whose
    construction failed, so the increment stays. *)
Theorem failed_construction_keeps_metric :
  exists (message : string) (w' : World),
    construct true fifo_pool (storage_of true plain_objects) "" world0
    = (Throw (LOGICAL_ERROR message), w')
    /\ directory_map_size world0 = 0%Z
    /\ directory_map_size w' = 2%Z
    /\ trace w' = [EvIterate "root/"; EvReadObject "root/d1/prefix.path";
                   EvReadObject "root/d2/prefix.path"; EvMetricAdd 2].
Proof.
  do 2 eexists. split; [vm_compute; reflexivity|]. by repeat split.
Qed.

(** C8.  When construction succeeds, the metric has been incremented once,
    by the size of the loaded map and after every scheduled unit has run;
    the destructor decrements it by the same amount, so that construction
    followed by destruction leaves the metric where it was. *)
Theorem attach_detach_metric_balance
    (USE_AWS_S3 : bool) (pool : ThreadPool) (os : ObjectStorage)
    (storage_path_prefix_ : string) (w w1 : World)
    (this : MetadataStorageFromPlainRewritableObjectStorage) :
  construct USE_AWS_S3 pool os storage_path_prefix_ w = (Ok this, w1) ->
  exists scan : list Event,
    trace w1 = trace w ++ scan
                 ++ [EvMetricAdd (size (path_map this));
                     EvSetKeysGenerator (getCommonKeyPrefix os)]
    /\ Forall (fun ev => is_metric_event ev = false) scan
    /\ (forall key : string,
          key ∈ schedule pool (scheduled_units os (getCommonKeyPrefix os)) ->
          EvReadObject key ∈ scan)
    /\ directory_map_size w1
       = (directory_map_size w + Z.of_nat (size (path_map this)))%Z
    /\ destroy this w1
       = (Ok tt, {| directory_map_size := directory_map_size w;
                    trace := trace w1 ++ [EvMetricSub (size (path_map this))] |}).
Proof.
  rewrite construct_eq, loadPathPrefixMap_eq.
  destruct (first_error _); [done|].
  destruct (isWriteOnce os); [done|].
  intros [= <- <-]. simpl.
  exists (EvIterate (getCommonKeyPrefix os)
            :: units_events os (schedule pool (scheduled_units os (getCommonKeyPrefix os))) ∅).
  split; [|split; [|split; [|split]]].
  - by rewrite <- !app_assoc.
  - constructor; [done|]. apply units_events_no_metric.
  - intros key Hkey. apply list_elem_of_further. by apply units_events_reads.
  - reflexivity.
  - unfold destroy, CurrentMetrics_sub. simpl. do 2 f_equal. lia.
Qed.

Lemma attach_detach_metric_balance_witness :
  exists this w1,
    construct true fifo_pool (storage_of false replicated_objects) "" world0
    = (Ok this, w1)
    /\ directory_map_size (destroy this w1).2 = directory_map_size world0.
Proof.
  destruct (construct true fifo_pool (storage_of false replicated_objects) "" world0)
    as [[this|e] w1] eqn:E; [|by vm_compute in E].
  exists this, w1. split; [reflexivity|].
  destruct (attach_detach_metric_balance _ _ _ _ _ _ _ E) as (scan & _ & _ & _ & _ & Hd).
  rewrite Hd. reflexivity.
Defined.

(** ** The order of the keys *)

Section OrderFacts.

Import FsPath.

Lemma compare_cons (c d : ascii) (a b : string) :
  String.compare (String c a) (String d b)
  = match Ascii.compare c d with
    | Eq => String.compare a b
    | Lt => Lt
    | Gt => Gt
    end.
Proof. reflexivity. Qed.

Lemma ascii_compare_refl (c : ascii) : Ascii.compare c c = Eq.
Proof.
  pose proof (Ascii.compare_antisym c c) as H.
  by destruct (Ascii.compare c c).
Qed.

Lemma string_compare_refl (a : string) : String.compare a a = Eq.
Proof.
  induction a as [|c a IH]; [done|].
  by rewrite compare_cons, ascii_compare_refl.
Qed.

Lemma string_compare_lt_trans (a b c : string) :
  String.compare a b = Lt -> String.compare b c = Lt -> String.compare a c = Lt.
Proof.
  intros Hab Hbc.
  assert (String_as_OT.lt a b) as H1 by exact Hab.
  assert (String_as_OT.lt b c) as H2 by exact Hbc.
  exact (StrictOrder_Transitive (R := String_as_OT.lt) a b c H1 H2).
Qed.

(** *** The comparison of lists of elements *)

Lemma compare_elements_refl (a : list string) : compare_elements a a = Eq.
Proof.
  induction a as [|x a IH]; simpl; [done|]. by rewrite string_compare_refl.
Qed.

Lemma compare_elements_eq (a b : list string) :
  compare_elements a b = Eq -> a = b.
Proof.
  revert b. induction a as [|x a IH]; intros [|y b]; simpl; try done.
  destruct (String.compare x y) eqn:E; try done.
  intros H. apply String.compare_eq_iff in E as ->. f_equal. by apply IH.
Qed.

Lemma compare_elements_antisym (a b : list string) :
  compare_elements b a = CompOpp (compare_elements a b).
Proof.
  revert b. induction a as [|x a IH]; intros [|y b]; simpl; try done.
  rewrite (String.compare_antisym x y).
  destruct (String.compare y x); simpl; [apply IH | done | done].
Qed.

Lemma compare_elements_le_trans (a b c : list string) :
  compare_elements a b <> Gt -> compare_elements b c <> Gt ->
  compare_elements a c <> Gt.
Proof.
  revert b c. induction a as [|x a IH]; intros [|y b] [|z c]; simpl; try done.
  destruct (String.compare x y) eqn:Exy; try done;
    destruct (String.compare y z) eqn:Eyz; try done.
  - apply String.compare_eq_iff in Exy as ->. rewrite Eyz. apply IH.
  - apply String.compare_eq_iff in Exy as ->. by rewrite Eyz.
  - apply String.compare_eq_iff in Eyz as <-. by rewrite Exy.
  - by rewrite (string_compare_lt_trans _ _ _ Exy Eyz).
Qed.

(** *** The comparison of paths: a total preorder whose equivalence is
    the equality of root directory and elements *)

Lemma compare_refl (a : string) : compare a a = Eq.
Proof.
  unfold compare. destruct (has_root_directory a); apply compare_elements_refl.
Qed.

Lemma compare_antisym (a b : string) : compare b a = CompOpp (compare a b).
Proof.
  unfold compare.
  destruct (has_root_directory a), (has_root_directory b); simpl; try done;
    apply compare_elements_antisym.
Qed.

Lemma compare_Eq (a b : string) : compare a b = Eq <-> path_key a = path_key b.
Proof.
  unfold compare, path_key. split.
  - destruct (has_root_directory a), (has_root_directory b); try done;
      intros H; f_equal; by apply compare_elements_eq.
  - intros [= Hr He]. rewrite Hr, He.
    destruct (has_root_directory b); apply compare_elements_refl.
Qed.

Lemma equivalent_path_key (a b : string) :
  equivalent a b = true <-> path_key a = path_key b.
Proof. unfold equivalent. rewrite <- compare_Eq. by destruct (compare a b). Qed.

Lemma equivalent_false (a b : string) :
  equivalent a b = false <-> path_key a <> path_key b.
Proof. rewrite <- equivalent_path_key. by destruct (equivalent a b). Qed.

Lemma equivalent_refl (a : string) : equivalent a a = true.
Proof. by apply equivalent_path_key. Qed.

Lemma le_not_lt (a b : string) : le a b = negb (lt b a).
Proof.
  unfold le, lt. rewrite (compare_antisym b a). by destruct (compare b a).
Qed.

Lemma le_refl (a : string) : le a a = true.
Proof. unfold le. by rewrite compare_refl. Qed.

Lemma le_total (a b : string) : le a b = true \/ le b a = true.
Proof.
  unfold le. rewrite (compare_antisym a b).
  destruct (compare a b); simpl; auto.
Qed.

Lemma le_trans (a b c : string) : le a b = true -> le b c = true -> le a c = true.
Proof.
  unfold le, compare.
  pose proof (compare_elements_le_trans (elements a) (elements b) (elements c)) as H.
  destruct (has_root_directory a), (has_root_directory b), (has_root_directory c);
    try done;
    destruct (compare_elements (elements a) (elements b)); try done;
    destruct (compare_elements (elements b) (elements c)); try done;
    destruct (compare_elements (elements a) (elements c)); try done;
    intros _ _; exfalso; by apply H.
Qed.

Lemma le_antisym (a b : string) :
  le a b = true -> le b a = true -> equivalent a b = true.
Proof.
  unfold le, equivalent. rewrite (compare_antisym a b).
  by destruct (compare a b).
Qed.

(** *** Paths without adjacent separators: the comparison reads the
    strings, with the separator below every other character *)

Lemma is_sep_eq (c : ascii) : is_sep c = true -> c = "/"%char.
Proof. apply Ascii.eqb_eq. Qed.

Lemma split_names_cons (c : ascii) (p : string) :
  split_names (String c p)
  = if is_sep c then "" :: split_names p
    else match split_names p with
         | [] => [String c ""]
         | n :: ns => String c n :: ns
         end.
Proof. reflexivity. Qed.

Lemma split_names_nonempty (p : string) : split_names p <> [].
Proof.
  destruct p as [|c p]; [done|]. rewrite split_names_cons.
  destruct (is_sep c); [done|]. by destruct (split_names p).
Qed.

Lemma compare_chars_cons (c d : ascii) (a b : string) :
  compare_chars (String c a) (String d b)
  = match compare_char c d with
    | Eq => compare_chars a b
    | Lt => Lt
    | Gt => Gt
    end.
Proof. reflexivity. Qed.

Lemma compare_elements_cons (x y : string) (a b : list string) :
  compare_elements (x :: a) (y :: b)
  = match String.compare x y with
    | Eq => compare_elements a b
    | Lt => Lt
    | Gt => Gt
    end.
Proof. reflexivity. Qed.

(** Cutting two strings at their separators and comparing name by name
    is comparing them character by character. *)
Lemma compare_split_names (a b : string) :
  compare_elements (split_names a) (split_names b) = compare_chars a b.
Proof.
  revert b. induction a as [|c a IH]; intros [|d b].
  - reflexivity.
  - rewrite split_names_cons. pose proof (split_names_nonempty b) as Hb.
    destruct (is_sep d); by destruct (split_names b).
  - rewrite split_names_cons. pose proof (split_names_nonempty a) as Ha.
    destruct (is_sep c); by destruct (split_names a).
  - specialize (IH b). rewrite !split_names_cons, compare_chars_cons.
    pose proof (split_names_nonempty a) as Ha.
    pose proof (split_names_nonempty b) as Hb.
    unfold compare_char.
    destruct (split_names a) as [|n ns]; [done|].
    destruct (split_names b) as [|n' ns']; [done|].
    destruct (is_sep c), (is_sep d); try done.
    rewrite compare_elements_cons, compare_cons.
    rewrite compare_elements_cons in IH.
    by destruct (Ascii.compare c d).
Qed.

Lemma normal_cons (c : ascii) (p : string) :
  normal (String c p) = true ->
  normal p = true /\ (is_sep c = true -> has_root_directory p = false).
Proof.
  destruct p as [|d p]; [done|].
  change (normal (String c (String d p)))
    with (negb (is_sep c && is_sep d) && normal (String d p)).
  intros [H1 H2]%andb_prop. split; [done|]. intros Hc.
  rewrite Hc in H1. simpl in *. by destruct (is_sep d).
Qed.

Lemma relative_elements_cons_cons (n n' : string) (rest : list string)
    (after_name : bool) :
  relative_elements (n :: n' :: rest) after_name
  = match n with
    | "" => relative_elements (n' :: rest) after_name
    | _ => n :: relative_elements (n' :: rest) true
    end.
Proof. by destruct n. Qed.

Lemma relative_elements_normal (p : string) :
  normal p = true ->
  relative_elements (tail (split_names p)) true = tail (split_names p)
  /\ (has_root_directory p = false ->
      relative_elements (split_names p) true = split_names p).
Proof.
  induction p as [|c p IH]; intros Hn; [done|].
  apply normal_cons in Hn as [Hn Hc]. destruct (IH Hn) as [IH1 IH2].
  rewrite split_names_cons. simpl has_root_directory.
  destruct (is_sep c) eqn:Ec.
  - split; [|done]. simpl. by apply IH2, Hc.
  - pose proof (split_names_nonempty p) as Hp.
    destruct (split_names p) as [|n ns]; [done|].
    simpl in IH1. split; [done|]. intros _.
    destruct ns as [|n' ns]; [done|].
    rewrite relative_elements_cons_cons. by rewrite IH1.
Qed.

(** The root directory is not an element. *)
Lemma elements_root (c : ascii) (p : string) :
  is_sep c = true -> elements (String c p) = elements p.
Proof.
  intros Hc. unfold elements. rewrite split_names_cons, Hc.
  pose proof (split_names_nonempty p) as Hp.
  by destruct (split_names p).
Qed.

Lemma elements_relative_normal (p : string) :
  normal p = true -> has_root_directory p = false ->
  elements p = match p with "" => [] | _ => split_names p end.
Proof.
  destruct p as [|c p]; [done|]. intros Hn Hc. simpl in Hc.
  apply normal_cons in Hn as [Hn _].
  destruct (relative_elements_normal p Hn) as [IH1 _].
  unfold elements. rewrite split_names_cons, Hc.
  pose proof (split_names_nonempty p) as Hp.
  destruct (split_names p) as [|n ns]; [done|].
  simpl in IH1. destruct ns as [|n' ns]; [done|].
  rewrite relative_elements_cons_cons. by rewrite IH1.
Qed.

Lemma compare_relative_normal (a b : string) :
  normal a = true -> normal b = true ->
  has_root_directory a = false -> has_root_directory b = false ->
  compare_elements (elements a) (elements b) = compare_chars a b.
Proof.
  intros Ha Hb Hra Hrb.
  rewrite (elements_relative_normal a), (elements_relative_normal b) by done.
  destruct a as [|c a], b as [|d b]; [done| | |apply compare_split_names].
  - pose proof (split_names_nonempty (String d b)).
    by destruct (split_names (String d b)).
  - pose proof (split_names_nonempty (String c a)).
    by destruct (split_names (String c a)).
Qed.

Lemma compare_normal_eq (a b : string) :
  normal a = true -> normal b = true -> compare a b = compare_normal a b.
Proof.
  intros Ha Hb. unfold compare, compare_normal.
  destruct (has_root_directory a) eqn:Hra, (has_root_directory b) eqn:Hrb;
    try done; [|by apply compare_relative_normal].
  destruct a as [|c a]; [done|]. destruct b as [|d b]; [done|].
  simpl in Hra, Hrb.
  apply normal_cons in Ha as [Ha Hra']. apply normal_cons in Hb as [Hb Hrb'].
  rewrite !elements_root, compare_chars_cons by done.
  unfold compare_char. rewrite Hra, Hrb.
  apply compare_relative_normal; auto.
Qed.

Lemma compare_char_refl (c : ascii) : compare_char c c = Eq.
Proof.
  unfold compare_char. destruct (is_sep c); [done | apply ascii_compare_refl].
Qed.

Lemma compare_char_eq (c d : ascii) : compare_char c d = Eq -> c = d.
Proof.
  unfold compare_char.
  destruct (is_sep c) eqn:Ec, (is_sep d) eqn:Ed; try done.
  - intros _. apply is_sep_eq in Ec, Ed. congruence.
  - apply Ascii.compare_eq_iff.
Qed.

Lemma compare_char_antisym (c d : ascii) :
  compare_char c d = CompOpp (compare_char d c).
Proof.
  unfold compare_char. destruct (is_sep c), (is_sep d); try done.
  apply Ascii.compare_antisym.
Qed.

Lemma compare_chars_eq (a b : string) : compare_chars a b = Eq -> a = b.
Proof.
  revert b. induction a as [|c a IH]; intros [|d b]; try done.
  rewrite compare_chars_cons.
  destruct (compare_char c d) eqn:E; try done.
  intros H. apply compare_char_eq in E as ->. f_equal. by apply IH.
Qed.

Lemma starts_with_not_below (k q : string) :
  StdString.starts_with k q = true -> compare_chars k q <> Lt.
Proof.
  revert k. induction q as [|c q IH]; intros k H.
  - by destruct k.
  - destruct k as [|d k]; [done|]. simpl in H.
    apply andb_prop in H as [->%Ascii.eqb_eq H].
    rewrite compare_chars_cons, compare_char_refl. by apply IH.
Qed.

Lemma starts_with_between (q k1 k2 : string) :
  compare_chars q k1 <> Gt -> compare_chars k1 k2 <> Gt ->
  StdString.starts_with k2 q = true -> StdString.starts_with k1 q = true.
Proof.
  revert k1 k2. induction q as [|c q IH]; intros k1 k2 H1 H2 H; [done|].
  destruct k2 as [|d2 k2]; [done|]. simpl in H.
  apply andb_prop in H as [->%Ascii.eqb_eq H].
  destruct k1 as [|d1 k1]; [done|].
  rewrite compare_chars_cons in H1, H2.
  pose proof (compare_char_antisym d1 d2) as Ha.
  destruct (compare_char d2 d1) eqn:E1; try done;
    destruct (compare_char d1 d2) eqn:E2; try done.
  apply compare_char_eq in E1 as ->.
  simpl. rewrite Ascii.eqb_refl. simpl. by apply (IH k1 k2).
Qed.

Lemma starts_with_root (k q : string) :
  StdString.starts_with k q = true -> q <> "" ->
  has_root_directory k = has_root_directory q.
Proof.
  destruct q as [|c q]; [done|]. destruct k as [|d k]; [done|]. simpl.
  by intros [->%Ascii.eqb_eq _]%andb_prop _.
Qed.

(** Two such paths that compare equal are one string. *)
Lemma normal_equivalent (a b : string) :
  normal a = true -> normal b = true -> equivalent a b = true -> a = b.
Proof.
  intros Ha Hb. unfold equivalent. rewrite compare_normal_eq by done.
  unfold compare_normal.
  destruct (has_root_directory a), (has_root_directory b); try done;
    destruct (compare_chars a b) eqn:E; try done; intros _;
    by apply compare_chars_eq.
Qed.

(** A key that starts with [q] is not below [q]. *)
Lemma starts_with_not_lt (k q : string) :
  normal k = true -> normal q = true ->
  StdString.starts_with k q = true -> lt k q = false.
Proof.
  intros Hk Hq H. unfold lt. rewrite compare_normal_eq by done.
  unfold compare_normal. destruct q as [|c q].
  - destruct (has_root_directory k); [done|]. by destruct k.
  - rewrite (starts_with_root k (String c q)) by done.
    pose proof (starts_with_not_below _ _ H).
    destruct (has_root_directory (String c q));
      by destruct (compare_chars k (String c q)).
Qed.

(** The keys that start with [q] are an interval of the order. *)
Lemma starts_with_convex (q k1 k2 : string) :
  normal q = true -> normal k1 = true -> normal k2 = true ->
  le q k1 = true -> le k1 k2 = true ->
  StdString.starts_with k2 q = true -> StdString.starts_with k1 q = true.
Proof.
  intros Hq Hk1 Hk2. unfold le. rewrite !compare_normal_eq by done.
  unfold compare_normal. destruct q as [|c q]; [done|].
  intros H1 H2 Hsw.
  rewrite (starts_with_root k2 _ Hsw) in H2 by done.
  apply (starts_with_between _ k1 k2); [| |done].
  - destruct (has_root_directory (String c q)), (has_root_directory k1);
      try done; by destruct (compare_chars (String c q) k1).
  - destruct (has_root_directory (String c q)), (has_root_directory k1);
      try done; by destruct (compare_chars k1 k2).
Qed.

(** *** The entries in key order *)

#[local] Instance key_le_trans : Transitive key_le.
Proof. intros a b c. unfold key_le. apply le_trans. Qed.

#[local] Instance key_le_total : Total key_le.
Proof. intros a b. unfold key_le. apply le_total. Qed.

Lemma path_map_entries_sorted (m : PathMap) :
  StronglySorted key_le (path_map_entries m).
Proof. apply StronglySorted_merge_sort; apply _. Qed.

Lemma path_map_entries_lookup (m : PathMap) (k v : string) :
  (k, v) ∈ path_map_entries m <-> m !! k = Some v.
Proof.
  unfold path_map_entries. rewrite merge_sort_Permutation.
  apply elem_of_map_to_list.
Qed.

End OrderFacts.

(** ** Insertions: the first marker of a local path wins *)

Section InsertionFacts.

Variable os : ObjectStorage.

(** *** Searching the Path Map for a path *)

Lemma path_find_Some (k : string) (m : PathMap) (e : string * string) :
  path_find k m = Some e ->
  m !! e.1 = Some e.2 /\ FsPath.equivalent e.1 k = true.
Proof.
  unfold path_find. intros [Hin He]%find_some. split; [|done].
  apply path_map_entries_lookup, list_elem_of_In. by destruct e.
Qed.

Lemma path_find_None (k : string) (m : PathMap) :
  path_find k m = None
  <-> forall k', is_Some (m !! k') -> FsPath.equivalent k' k = false.
Proof.
  unfold path_find. split.
  - intros E k' [v Hv].
    apply path_map_entries_lookup, list_elem_of_In in Hv.
    exact (find_none _ _ E (k', v) Hv).
  - intros H. destruct (List.find _ _) as [[k' v]|] eqn:E; [|done].
    apply find_some in E as [Hin He].
    apply list_elem_of_In, path_map_entries_lookup in Hin. simpl in He.
    rewrite H in He; [done | by eexists].
Qed.

Lemma path_find_fresh (k : string) (m : PathMap) :
  path_find k m = None -> m !! k = None.
Proof.
  intros H. destruct (m !! k) eqn:E; [|done].
  rewrite path_find_None in H. specialize (H k (mk_is_Some _ _ E)).
  by rewrite equivalent_refl in H.
Qed.

Lemma path_find_wf (m : PathMap) (k k' v : string) :
  path_map_wf m -> m !! k' = Some v -> FsPath.equivalent k' k = true ->
  path_find k m = Some (k', v).
Proof.
  intros Hwf Hk' He. destruct (path_find k m) as [[k0 v0]|] eqn:E.
  - apply path_find_Some in E as [H0 He0]. simpl in *.
    assert (k0 = k') as ->; [|congruence].
    apply Hwf; [by eexists | by eexists |].
    rewrite equivalent_path_key in *. congruence.
  - rewrite path_find_None in E. rewrite E in He; [done | by eexists].
Qed.

Lemma path_map_wf_empty : path_map_wf ∅.
Proof. intros k1 k2 [v H]. by rewrite lookup_empty in H. Qed.

Lemma path_emplace_wf (k v : string) (m : PathMap) :
  path_map_wf m -> path_map_wf (path_emplace k v m).1.
Proof.
  unfold path_emplace. destruct (path_find k m) eqn:E; simpl; [done|].
  intros Hwf k1 k2 H1 H2 He. rewrite path_find_None in E.
  apply lookup_insert_is_Some in H1 as [<-|[? H1]];
    apply lookup_insert_is_Some in H2 as [<-|[? H2]]; try done.
  - apply E in H2. rewrite equivalent_path_key in He.
    rewrite equivalent_false in H2. congruence.
  - apply E in H1. by rewrite H1 in He.
  - by apply Hwf.
Qed.

Lemma path_find_insert (k v p : string) (m : PathMap) :
  path_map_wf m -> path_find k m = None ->
  path_find p (<[k := v]> m)
  = if FsPath.equivalent k p then Some (k, v) else path_find p m.
Proof.
  intros Hwf Hnone.
  assert (Hwf' : path_map_wf (<[k := v]> m)).
  { pose proof (path_emplace_wf k v m Hwf) as H.
    unfold path_emplace in H. by rewrite Hnone in H. }
  destruct (FsPath.equivalent k p) eqn:Ekp.
  - apply path_find_wf; [done | apply lookup_insert_eq | done].
  - destruct (path_find p m) as [[k0 v0]|] eqn:E.
    + apply path_find_Some in E as [H0 He0]. simpl in *.
      apply path_find_wf; [done | | done].
      rewrite lookup_insert_ne; [done|]. intros ->. congruence.
    + apply path_find_None. intros k' Hk'.
      apply lookup_insert_is_Some in Hk' as [<-|[_ Hk']]; [done|].
      rewrite path_find_None in E. by apply E.
Qed.

(** *** One unit, then all of them *)

Lemma unit_result_wf (path : string) (m : PathMap) :
  path_map_wf m -> path_map_wf (unit_result os path m).
Proof.
  intros Hwf. unfold unit_result.
  destruct (readObject os path); [by apply path_emplace_wf | done].
Qed.

Lemma units_result_cons (path : string) (rest : list string) (m : PathMap) :
  units_result os (path :: rest) m = units_result os rest (unit_result os path m).
Proof. reflexivity. Qed.

Lemma units_result_wf (units : list string) (m : PathMap) :
  path_map_wf m -> path_map_wf (units_result os units m).
Proof.
  revert m. induction units as [|path rest IH]; intros m Hwf; [done|].
  rewrite units_result_cons. by apply IH, unit_result_wf.
Qed.

Lemma unit_result_find (path : string) (m : PathMap) (p : string) :
  path_map_wf m ->
  path_find p (unit_result os path m)
  = match path_find p m with
    | Some e => Some e
    | None =>
        match readObject os path with
        | Ok q =>
            if FsPath.equivalent q p then Some (q, FsPath.parent_path path)
            else None
        | Throw _ => None
        end
    end.
Proof.
  intros Hwf. unfold unit_result.
  destruct (readObject os path) as [q|e]; [|by destruct (path_find p m)].
  unfold path_emplace. destruct (path_find q m) as [e0|] eqn:Eq; simpl.
  - destruct (path_find p m) eqn:Ep; [done|].
    destruct (FsPath.equivalent q p) eqn:Eqp; [|done]. exfalso.
    apply path_find_Some in Eq as [H0 He0]. rewrite path_find_None in Ep.
    specialize (Ep e0.1 (mk_is_Some _ _ H0)).
    rewrite equivalent_path_key in *. rewrite equivalent_false in Ep.
    congruence.
  - rewrite path_find_insert by done.
    destruct (FsPath.equivalent q p) eqn:Eqp; [|by destruct (path_find p m)].
    destruct (path_find p m) as [e1|] eqn:Ep; [|done]. exfalso.
    apply path_find_Some in Ep as [H1 He1]. rewrite path_find_None in Eq.
    specialize (Eq e1.1 (mk_is_Some _ _ H1)).
    rewrite equivalent_path_key in *. rewrite equivalent_false in Eq.
    congruence.
Qed.

(** After the units, the Path Map finds for a path what it found before
    or, when it found nothing, what the first unit that carries the path
    asks for. *)
Lemma units_result_find (units : list string) (m : PathMap) (p : string) :
  path_map_wf m ->
  path_find p (units_result os units m)
  = match path_find p m with
    | Some e => Some e
    | None => first_unit_for os units p ≫= marker_entry os
    end.
Proof.
  unfold first_unit_for. revert m.
  induction units as [|path rest IH]; intros m Hwf.
  - simpl. by destruct (path_find p m).
  - rewrite units_result_cons, IH, unit_result_find
      by (try apply unit_result_wf; done).
    destruct (path_find p m); [done|]. simpl. unfold marker_entry at 1.
    destruct (readObject os path) as [q|e] eqn:Eread; [|done].
    destruct (FsPath.equivalent q p); [|done].
    simpl. unfold marker_entry. by rewrite Eread.
Qed.

Lemma first_unit_for_Some (units : list string) (p key : string) :
  first_unit_for os units p = Some key ->
  key ∈ units
  /\ exists q, readObject os key = Ok q /\ FsPath.equivalent q p = true.
Proof.
  unfold first_unit_for. intros [Hin Hb]%find_some.
  split; [by apply list_elem_of_In|].
  destruct (readObject os key) as [q|]; [|done]. by exists q.
Qed.

Lemma first_unit_for_is_Some (units : list string) (p key q : string) :
  key ∈ units -> readObject os key = Ok q -> FsPath.equivalent q p = true ->
  is_Some (first_unit_for os units p).
Proof.
  unfold first_unit_for. intros Hin Hread He.
  destruct (List.find _ units) eqn:E; [by eexists|].
  apply list_elem_of_In in Hin. apply (find_none _ _ E key) in Hin as Hb.
  rewrite Hread in Hb. congruence.
Qed.

Lemma local_paths_cons (path : string) (rest : list string) :
  local_paths os (path :: rest)
  = match readObject os path with
    | Ok q => q :: local_paths os rest
    | Throw _ => local_paths os rest
    end.
Proof. unfold local_paths. simpl. by destruct (readObject os path). Qed.

Lemma elem_of_local_paths (units : list string) (p : string) :
  p ∈ local_paths os units <-> exists key, key ∈ units /\ readObject os key = Ok p.
Proof.
  unfold local_paths. rewrite list_elem_of_omap. split.
  - intros (key & Hin & Hk). exists key. split; [done|].
    destruct (readObject os key); congruence.
  - intros (key & Hin & Hk). exists key. split; [done|]. by rewrite Hk.
Qed.

(** Every stored entry was asked for by a unit. *)
Lemma units_result_lookup_sound (units : list string) (m : PathMap)
    (p r : string) :
  units_result os units m !! p = Some r ->
  m !! p = Some r
  \/ exists key, key ∈ units /\ readObject os key = Ok p
                 /\ r = FsPath.parent_path key.
Proof.
  revert m. induction units as [|path rest IH]; intros m; [by left|].
  rewrite units_result_cons. intros [H|(key & Hin & Hread & ->)]%IH.
  - unfold unit_result in H.
    destruct (readObject os path) as [q|e] eqn:Eread; [|by left].
    unfold path_emplace in H. destruct (path_find q m); simpl in H; [by left|].
    apply lookup_insert_Some in H as [[<- <-]|[_ H]]; [|by left].
    right. exists path. split; [apply list_elem_of_here | done].
  - right. exists key. split; [by apply list_elem_of_further | done].
Qed.

(** *** The number of entries *)

Lemma elem_of_path_keys (m : PathMap) (x : bool * list string) :
  x ∈ path_keys m <-> exists k, is_Some (m !! k) /\ x = FsPath.path_key k.
Proof.
  unfold path_keys. rewrite elem_of_list_to_set, list_elem_of_fmap. split.
  - intros (k & -> & Hk). exists k. split; [|done].
    apply list_elem_of_fmap in Hk as ([k' v] & -> & Hkv).
    apply elem_of_map_to_list in Hkv. by eexists.
  - intros (k & [v Hv] & ->). exists k. split; [done|].
    apply list_elem_of_fmap. exists (k, v). split; [done|].
    by apply elem_of_map_to_list.
Qed.

Lemma path_keys_size (m : PathMap) :
  path_map_wf m -> size (path_keys m) = size m.
Proof.
  intros Hwf. unfold path_keys. rewrite size_list_to_set.
  - by rewrite !length_fmap, length_map_to_list.
  - apply NoDup_fmap_2_strong; [|apply NoDup_fst_map_to_list].
    intros k1 k2 H1 H2 Heq.
    apply Hwf; [| |by apply equivalent_path_key].
    + apply list_elem_of_fmap in H1 as ([k v] & -> & H).
      apply elem_of_map_to_list in H. by eexists.
    + apply list_elem_of_fmap in H2 as ([k v] & -> & H).
      apply elem_of_map_to_list in H. by eexists.
Qed.

Lemma unit_result_path_keys (path : string) (m : PathMap) :
  path_keys (unit_result os path m)
  = path_keys m ∪ match readObject os path with
                  | Ok q => {[ FsPath.path_key q ]}
                  | Throw _ => ∅
                  end.
Proof.
  apply set_eq. intros x. rewrite elem_of_union, !elem_of_path_keys.
  unfold unit_result. destruct (readObject os path) as [q|e].
  - rewrite elem_of_singleton. unfold path_emplace.
    destruct (path_find q m) as [e|] eqn:E; simpl.
    + apply path_find_Some in E as [H0 He0].
      split; [by left|]. intros [H| ->]; [done|].
      exists e.1. split; [by eexists|].
      symmetry. by apply equivalent_path_key.
    + split.
      * intros (k & Hk & ->).
        apply lookup_insert_is_Some in Hk as [<-|[_ Hk]]; [by right|].
        left. by exists k.
      * intros [(k & Hk & ->)| ->].
        -- exists k. split; [|done]. apply lookup_insert_is_Some.
           destruct (decide (q = k)); [by left | by right].
        -- exists q. split; [|done]. rewrite lookup_insert_eq. by eexists.
  - rewrite elem_of_empty. tauto.
Qed.

Lemma units_result_path_keys (units : list string) (m : PathMap) :
  path_keys (units_result os units m)
  = path_keys m ∪ list_to_set (FsPath.path_key <$> local_paths os units).
Proof.
  revert m. induction units as [|path rest IH]; intros m.
  - simpl. set_solver.
  - rewrite units_result_cons, IH, unit_result_path_keys, local_paths_cons.
    destruct (readObject os path); simpl; set_solver.
Qed.


(** Every unit whose read succeeds either adds an entry or logs one
    warning. *)
Lemma units_warnings (units : list string) (m : PathMap) :
  length (List.filter is_warning (units_events os units m))
    + size (units_result os units m)
  = size m + length (local_paths os units).
Proof.
  revert m. induction units as [|path rest IH]; intros m; [simpl; lia|].
  rewrite units_result_cons, local_paths_cons. simpl.
  rewrite List.filter_app, length_app.
  specialize (IH (unit_result os path m)). revert IH.
  unfold unit_result.
  destruct (readObject os path) as [q|e]; simpl; [|lia].
  unfold path_emplace.
  destruct (path_find q m) as [[k mapped]|] eqn:Hq; simpl; [lia|].
  rewrite map_size_insert_None by by apply path_find_fresh. lia.
Qed.




Lemma local_paths_perm (units1 units2 : list string) :
  units1 ≡ₚ units2 -> local_paths os units1 ≡ₚ local_paths os units2.
Proof. intros Hperm. unfold local_paths. by rewrite Hperm. Qed.

(** *** Markers that carry pairwise distinct paths *)

(** Without two markers for one path, the first unit that carries a path
    is the only one. *)
Lemma first_unit_for_unique (units : list string) (p key : string) :
  NoDup (FsPath.path_key <$> local_paths os units) ->
  key ∈ units -> readObject os key = Ok p ->
  first_unit_for os units p = Some key.
Proof.
  unfold first_unit_for.
  induction units as [|a rest IH]; intros Hnd Hin Hread.
  - by apply elem_of_nil in Hin.
  - rewrite local_paths_cons in Hnd. simpl.
    apply elem_of_cons in Hin as [->|Hin].
    + by rewrite Hread, equivalent_refl.
    + destruct (readObject os a) as [q|e] eqn:Ea; [|by apply IH].
      rewrite fmap_cons in Hnd. apply NoDup_cons in Hnd as [Hq Hnd].
      destruct (FsPath.equivalent q p) eqn:Eqp; [|by apply IH].
      exfalso. apply Hq. apply equivalent_path_key in Eqp. rewrite Eqp.
      apply list_elem_of_fmap_2, elem_of_local_paths. by exists key.
Qed.

Lemma units_result_lookup_distinct (units : list string) (p r : string) :
  NoDup (FsPath.path_key <$> local_paths os units) ->
  units_result os units ∅ !! p = Some r
  <-> exists key, key ∈ units /\ readObject os key = Ok p
                  /\ r = FsPath.parent_path key.
Proof.
  intros Hnd. split.
  - intros [H|H]%units_result_lookup_sound; [|done].
    by rewrite lookup_empty in H.
  - intros (key & Hin & Hread & ->).
    pose proof (units_result_find units ∅ p path_map_wf_empty) as Hfind.
    assert (path_find p ∅ = None) as Hnone by done.
    rewrite Hnone, (first_unit_for_unique units p key) in Hfind by done.
    simpl in Hfind. unfold marker_entry in Hfind. rewrite Hread in Hfind.
    by apply path_find_Some in Hfind as [H _].
Qed.

Lemma first_fatal_error (units : list string) :
  first_error (map (unit_future true os) units) = head (fatal_errors os units).
Proof.
  unfold fatal_errors. induction units as [|path rest IH]; simpl; [done|].
  unfold unit_future at 1, tolerated.
  destruct (readObject os path) as [q|e]; simpl; [done|].
  by destruct (bool_decide (e = S3Exception NO_SUCH_KEY)).
Qed.

End InsertionFacts.




(** Two markers whose local paths are one path, written in two ways: one
    entry, and one warning for the marker that comes second. *)
Example aliased_local_paths :
  exists w',
    loadPathPrefixMap true fifo_pool "root/" (storage_of false aliased_objects) world0
    = (Ok (<[ "/a/b/" := "root/d1" ]> ∅), w')
    /\ trace w' = [ EvIterate "root/"; EvReadObject "root/d1/prefix.path";
                    EvReadObject "root/d2/prefix.path";
                    EvLogWarning "/a//b/" "root/d1" "root/d2"; EvMetricAdd 1 ].
Proof. eexists. split; [by vm_compute | reflexivity]. Qed.



(** C4.  In a build with the S3 client, a unit whose read fails with
    NO_SUCH_KEY ends normally and leaves the map as it is.  When no read
    fails otherwise, the load returns; every entry of its map has the
    local path of a marker that was read, and the paths the map finds are
    those of the markers that were read (when no path was read in two
    different writings, the local paths stored are the local paths read).
    When some read fails otherwise,
    every unit is run all the same, then the load throws the first of
    these failures in the order of the run, and the metric is not
    touched. *)
Theorem read_failure_policy
    (pool : ThreadPool) (os : ObjectStorage) (root : string) (w : World) :
  let units := schedule pool (scheduled_units os root) in
  (forall (path : string) (result : PathMap) (w0 : World),
      readObject os path = Throw (S3Exception NO_SUCH_KEY) ->
      load_unit true os path result w0
      = (Ok result, add_trace w0 [EvReadObject path]))
  /\ match fatal_errors os units with
     | [] =>
         exists (loaded : PathMap) (w' : World),
           loadPathPrefixMap true pool root os w = (Ok loaded, w')
           /\ (forall local_path : string,
                 is_Some (loaded !! local_path) ->
                 exists key, key ∈ units /\ readObject os key = Ok local_path)
           /\ (forall local_path : string,
                 is_Some (path_find local_path loaded) <->
                 exists key read,
                   key ∈ units /\ readObject os key = Ok read
                   /\ FsPath.equivalent read local_path = true)
           /\ ((forall p q : string,
                   p ∈ local_paths os units -> q ∈ local_paths os units ->
                   FsPath.equivalent p q = true -> p = q) ->
               forall local_path : string,
                 is_Some (loaded !! local_path) <->
                 exists key, key ∈ units /\ readObject os key = Ok local_path)
     | e :: _ =>
         exists w' : World,
           loadPathPrefixMap true pool root os w = (Throw e, w')
           /\ directory_map_size w' = directory_map_size w
           /\ forall key, key ∈ units -> EvReadObject key ∈ trace w'
     end.
Proof.
  intros units. split.
  - intros path result w0 Hread.
    rewrite load_unit_eq. unfold unit_future, unit_result, unit_events, tolerated.
    by rewrite Hread.
  - rewrite loadPathPrefixMap_eq. fold units. rewrite first_fatal_error.
    destruct (fatal_errors os units) as [|e rest]; simpl.
    + assert (Hsound : forall local_path : string,
                 is_Some (units_result os units ∅ !! local_path) ->
                 exists key, key ∈ units /\ readObject os key = Ok local_path).
      { intros local_path [r [H|(key & Hin & Hread & _)]%units_result_lookup_sound];
          [by rewrite lookup_empty in H|].
        by exists key. }
      do 2 eexists. split; [reflexivity|]. split; [exact Hsound|].
      split; [|intros Hsame local_path; split; [apply Hsound|]].
      2: { intros (key & Hin & Hread).
           pose proof (units_result_find os units ∅ local_path path_map_wf_empty)
             as Hfind.
           assert (path_find local_path ∅ = None) as Hnone by done.
           rewrite Hnone in Hfind.
           destruct (first_unit_for_is_Some os units local_path key local_path
                       Hin Hread (equivalent_refl _)) as [key' E].
           rewrite E in Hfind. simpl in Hfind.
           apply first_unit_for_Some in E as (Hin' & q' & Hread' & He').
           unfold marker_entry in Hfind. rewrite Hread' in Hfind.
           apply path_find_Some in Hfind as [Hl _]. simpl in Hl.
           assert (q' = local_path) as <-; [|by eexists].
           apply Hsame; [| |done]; apply elem_of_local_paths; eauto. }
      * intros local_path.
        rewrite units_result_find by apply path_map_wf_empty.
        assert (path_find local_path ∅ = None) as -> by done.
        split.
        -- destruct (first_unit_for os units local_path) as [key|] eqn:E;
             [|by intros [? ?]].
           intros _. apply first_unit_for_Some in E as (Hin & q & Hread & He).
           by exists key, q.
        -- intros (key & q & Hin & Hread & He).
           destruct (first_unit_for_is_Some os units local_path key q Hin Hread He)
             as [key' E].
           rewrite E. simpl.
           apply first_unit_for_Some in E as (_ & q' & Hread' & _).
           unfold marker_entry. rewrite Hread'. by eexists.
    + eexists. split; [reflexivity|]. split; [done|].
      intros key Hkey. simpl. apply elem_of_app. right.
      apply list_elem_of_further. by apply units_events_reads.
Qed.

(** ** The first loop of the resolver *)

Section ScanFacts.

Import StdString.

Variable local_path : string.

Lemma scan_as_fold (it : list (string * string)) (table : gmap string string) :
  scan_local_path_prefixes local_path it table
  = foldl (add_subdir local_path) table
      (List.filter (is_direct_child local_path) (visited_entries local_path it)).
Proof.
  revert table. induction it as [|[k v] rest IH]; intros table; simpl; [done|].
  destruct (starts_with k local_path); simpl; [|done].
  unfold is_direct_child at 1. simpl.
  destruct (Nat.eqb (count_from (size local_path) k "/") 1); simpl; apply IH.
Qed.

Lemma filter_none {A} (f : A -> bool) (l : list A) :
  (forall x, x ∈ l -> f x = false) -> List.filter f l = [].
Proof.
  induction l as [|a l IH]; intros H; simpl; [done|].
  rewrite (H a) by apply list_elem_of_here.
  apply IH. intros x Hx. apply H. by apply list_elem_of_further.
Qed.

(** The loop gets past its [break] test only on entries of the range it
    is started on, and only on keys that start with [local_path]. *)
Lemma visited_entries_elem (it : list (string * string)) (e : string * string) :
  e ∈ visited_entries local_path it ->
  e ∈ it /\ starts_with e.1 local_path = true.
Proof.
  induction it as [|[k v] rest IH]; simpl; [by intros ?%elem_of_nil|].
  destruct (starts_with k local_path) eqn:Hsw; simpl; [|by intros ?%elem_of_nil].
  intros [->|Hin]%elem_of_cons.
  - split; [apply list_elem_of_here | done].
  - destruct (IH Hin) as [H1 H2]. split; [by apply list_elem_of_further | done].
Qed.

Lemma lower_bound_from_elem (l : list (string * string)) (e : string * string) :
  e ∈ lower_bound_from local_path l -> e ∈ l.
Proof.
  induction l as [|[k v] rest IH]; [done|]. simpl.
  destruct (FsPath.lt k local_path); [|done].
  intros Hin. by apply list_elem_of_further, IH.
Qed.

(** From here on neither [local_path] nor the keys have two adjacent
    separators. *)
Hypothesis local_path_normal : FsPath.normal local_path = true.

(** From an entry that is not below [local_path] on, the loop stops at
    the first key that does not start with [local_path], and no later
    key does. *)
Lemma visited_from_lower_bound (l : list (string * string)) :
  Forall (fun e => FsPath.normal e.1 = true) l ->
  StronglySorted key_le l ->
  Forall (fun e => FsPath.le local_path e.1 = true) l ->
  visited_entries local_path l
  = List.filter (fun e => starts_with e.1 local_path) l.
Proof.
  intros Hn Hs. revert Hn.
  induction Hs as [|[k v] rest Hsorted IH Hall]; intros Hn Hge; simpl; [done|].
  apply Forall_cons in Hge as [Hk Hge]. apply Forall_cons in Hn as [Hnk Hn].
  simpl in Hk, Hnk.
  destruct (starts_with k local_path) eqn:Hsw; simpl.
  - f_equal. by apply IH.
  - symmetry. apply filter_none. intros [k' v'] Hin. simpl.
    destruct (starts_with k' local_path) eqn:Hsw'; [|done].
    rewrite Forall_forall in Hall, Hn.
    specialize (Hall _ Hin). specialize (Hn _ Hin).
    unfold key_le in Hall. simpl in Hall, Hn.
    by rewrite (starts_with_convex local_path k k'
                  local_path_normal Hnk Hn Hk Hall Hsw') in Hsw.
Qed.

Lemma lower_bound_visited (l : list (string * string)) :
  Forall (fun e => FsPath.normal e.1 = true) l ->
  StronglySorted key_le l ->
  visited_entries local_path (lower_bound_from local_path l)
  = List.filter (fun e => starts_with e.1 local_path) l.
Proof.
  intros Hn Hs. revert Hn.
  induction Hs as [|[k v] rest Hsorted IH Hall]; intros Hn; [done|].
  apply Forall_cons in Hn as [Hnk Hn]. simpl in Hnk.
  simpl lower_bound_from.
  destruct (FsPath.lt k local_path) eqn:Hlt.
  - rewrite IH by done. simpl.
    destruct (starts_with k local_path) eqn:Hsw; [|done].
    by rewrite (starts_with_not_lt _ _ Hnk local_path_normal Hsw) in Hlt.
  - assert (Hk : FsPath.le local_path k = true) by by rewrite le_not_lt, Hlt.
    apply visited_from_lower_bound; [by constructor | by constructor |].
    constructor; [done|].
    eapply Forall_impl; [exact Hall|].
    intros [k' v'] Hle. unfold key_le in Hle. simpl in *.
    by apply (le_trans _ k).
Qed.

Lemma path_map_entries_normal (m : PathMap) :
  (forall k v, m !! k = Some v -> FsPath.normal k = true) ->
  Forall (fun e => FsPath.normal e.1 = true) (path_map_entries m).
Proof.
  intros Hm. apply Forall_forall. intros [k v] Hin.
  apply path_map_entries_lookup in Hin. by apply (Hm k v).
Qed.

Lemma fold_add_subdir_lookup (l : list (string * string))
    (table : gmap string string) (remote : string) :
  foldl (add_subdir local_path) table l !! remote
  = match table !! remote with
    | Some name => Some name
    | None =>
        (fun e => child_name local_path e.1)
          <$> List.find (fun e => bool_decide (e.2 = remote)) l
    end.
Proof.
  revert table. induction l as [|[k v] rest IH]; intros table; simpl.
  - by destruct (table !! remote).
  - rewrite IH. unfold add_subdir, emplace. simpl.
    destruct (decide (v = remote)) as [->|Hne].
    + rewrite bool_decide_eq_true_2 by done.
      destruct (table !! remote) eqn:E; simpl; [by rewrite E|].
      by rewrite lookup_insert_eq.
    + rewrite bool_decide_eq_false_2 by done.
      destruct (table !! v); simpl; [done|]. by rewrite lookup_insert_ne.
Qed.

(** A key with one separator after [local_path], at its end, is
    [local_path], the child name and the separator. *)
Lemma child_name_trailing_sep (k : string) :
  starts_with k local_path = true ->
  count_from (size local_path) k "/" = 1 ->
  back k = Some "/"%char ->
  k = local_path +:+ child_name local_path k +:+ "/"
  /\ count "/" (child_name local_path k) = 0.
Proof.
  intros Hsw Hcount Hback.
  pose proof (starts_with_split _ _ Hsw) as Hk.
  pose proof (starts_with_size _ _ Hsw) as Hlen.
  unfold count_from in Hcount. unfold child_name, range_drop_last.
  set (suffix := drop (size local_path) k) in *.
  assert (Hne : size local_path < size k).
  { destruct (decide (size local_path = size k)) as [Heq|]; [|lia].
    unfold suffix in Hcount. by rewrite str_drop_all in Hcount by lia. }
  assert (Hsb : back suffix = Some "/"%char)
    by (unfold suffix; by rewrite back_drop).
  apply back_split in Hsb.
  assert (Hsz : size suffix = size k - size local_path) by apply str_size_drop.
  replace (size k - 1 - size local_path) with (size suffix - 1) by lia.
  split.
  - by rewrite <- Hsb.
  - rewrite Hsb in Hcount. rewrite str_count_append in Hcount.
    simpl in Hcount. lia.
Qed.

End ScanFacts.




Example nested_entries_in_key_order :
  path_map_entries nested_path_map
  = [ ("/", "r"); ("/a/", "q"); ("/a/b/", "p1"); ("/a/b/c/", "y");
      ("/a/c/", "p2"); ("/a.b/", "x") ].
Proof. by vm_compute. Qed.

(** The keys are ordered element by element: ["b"] is below ["b.c"],
    though the string ["/a/b.c/"] is below the string ["/a/b/"]. *)
Example elements_before_bytes :
  path_map_entries (<[ "/a/b/" := "2" ]> (<[ "/a/b.c/" := "1" ]> ∅))
  = [ ("/a/b/", "2"); ("/a/b.c/", "1") ]
  /\ String.ltb "/a/b.c/" "/a/b/" = true.
Proof. split; by vm_compute. Qed.

Example nested_visited :
  visited_entries "/a/" (lower_bound nested_path_map "/a/")
  = [ ("/a/", "q"); ("/a/b/", "p1"); ("/a/b/c/", "y"); ("/a/c/", "p2") ].
Proof. by vm_compute. Qed.

Example nested_table :
  map_to_list (build_remote_to_local_subdir "/a/" nested_path_map)
  ≡ₚ [ ("p1", "b"); ("p2", "c") ].
Proof. vm_compute. apply perm_swap || reflexivity. Qed.

Lemma read_failure_policy_witness :
  exists w' : World,
    loadPathPrefixMap true lifo_pool "root/" (storage_of false failing_objects) world0
    = (Throw (S3Exception ACCESS_DENIED), w')
    /\ directory_map_size w' = 0%Z
    /\ EvReadObject "root/d1/prefix.path" ∈ trace w'.
Proof.
  destruct (read_failure_policy lifo_pool (storage_of false failing_objects)
              "root/" world0) as [_ H].
  change (fatal_errors _ _)
    with [S3Exception ACCESS_DENIED; OtherException "timeout"] in H.
  destruct H as (w' & Hl & Hm & Hr).
  exists w'. split; [exact Hl|]. split; [exact Hm|].
  apply Hr. apply (bool_decide_unpack _). vm_compute. exact I.
Defined.

Example removed_directory_is_skipped :
  exists w',
    loadPathPrefixMap true fifo_pool "root/" (storage_of false racy_objects) world0
    = (Ok (<[ "/c/" := "root/d3" ]> (<[ "/a/" := "root/d1" ]> ∅)), w')
    /\ directory_map_size w' = 2%Z.
Proof. eexists. split; [by vm_compute | reflexivity]. Qed.

(** Without the S3 client in the build, nothing is tolerated. *)
Example no_such_key_without_s3 :
  exists w',
    loadPathPrefixMap false fifo_pool "root/" (storage_of false racy_objects) world0
    = (Throw (S3Exception NO_SUCH_KEY), w')
    /\ directory_map_size w' = 0%Z.
Proof. eexists. split; [by vm_compute | reflexivity]. Qed.

Example replicas_in_submission_order :
  exists w',
    loadPathPrefixMap true fifo_pool "root/" (storage_of false replicated_objects) world0
    = (Ok (<[ "/a/b/" := "root/d2" ]> (<[ "/a/" := "root/d1" ]> ∅)), w')
    /\ trace w' = [ EvIterate "root/"; EvReadObject "root/d1/prefix.path";
                    EvReadObject "root/d2/prefix.path";
                    EvReadObject "root/d3/prefix.path";
                    EvLogWarning "/a/" "root/d1" "root/d3"; EvMetricAdd 2 ].
Proof. eexists. split; [by vm_compute | reflexivity]. Qed.

(** A key that is not under the storage key and is shorter than it makes
    [substr] throw. *)
Example short_key_throws :
  getDirectChildrenOnRewritableDisk "root/" [remote_entry "roo"] "/a/" ∅
  = Throw OutOfRange.
Proof. reflexivity. Qed.

(** Two entries with the same remote prefix: the table keeps the first. *)
Example shared_remote_prefix :
  build_remote_to_local_subdir "/a/"
    (<[ "/a/z/" := "p1" ]> (<[ "/a/b/" := "p1" ]> ∅)) !! "p1" = Some "b".
Proof. by vm_compute. Qed.

(** The example read with keys that are not under the storage key: the
    assertion of the second loop fails, and the names are cut at the
    length of the storage key. *)
Example listing_outside_storage_key :
  chassert_under_storage_key "root/" "p1/file1" = false
  /\ exists names : list string,
      getDirectChildrenOnRewritableDisk "root/"
        [ remote_entry "p1/file1"; remote_entry "p2/file2";
          remote_entry "root/top.txt"; remote_entry "root/prefix.path" ]
        "/a/" (example_path_map "") = Ok names
      /\ names ≡ₚ ["le1"; "le2"; "top.txt"].
Proof.
  split; [reflexivity|].
  eexists. split; [vm_compute; reflexivity|].
  apply NoDup_Permutation.
  - apply (bool_decide_unpack _). vm_compute. exact I.
  - apply (bool_decide_unpack _). vm_compute. exact I.
  - intros name. rewrite !elem_of_cons, !elem_of_nil. tauto.
Qed.

(** * Further properties of the code *)

(** ** More on strings *)

Section MoreStringFacts.

Import StdString.

Lemma str_append_assoc (a b c : string) : (a +:+ b) +:+ c = a +:+ (b +:+ c).
Proof.
  induction a as [|x a IH]; [done|].
  rewrite !append_cons. by rewrite IH.
Qed.

Lemma str_append_empty_r (a : string) : a +:+ "" = a.
Proof.
  induction a as [|x a IH]; [done|].
  rewrite append_cons. by rewrite IH.
Qed.

Lemma take_size_append (a b : string) : take (size a) (a +:+ b) = a.
Proof.
  pose proof (str_take_append a b 0) as H.
  rewrite Nat.add_0_r in H. rewrite H.
  replace (take 0 b) with "" by by destruct b.
  apply str_append_empty_r.
Qed.

Lemma find_none_count (c : ascii) (s : string) :
  find c s 0 = None <-> count c s = 0.
Proof.
  induction s as [|a s IH]; simpl; [done|].
  destruct (Ascii.eqb a c); simpl.
  - split; [done | lia].
  - rewrite <- IH. by destruct (find c s 0).
Qed.

Lemma find_append_sep (c : ascii) (a b : string) :
  find c a 0 = None -> find c (a +:+ String c b) 0 = Some (size a).
Proof.
  induction a as [|x a IH]; intros H.
  - rewrite append_empty. simpl. by rewrite Ascii.eqb_refl.
  - rewrite append_cons. simpl in *.
    destruct (Ascii.eqb x c); [done|].
    destruct (find c a 0); [done|]. by rewrite IH.
Qed.

Lemma find_take_none (c : ascii) (s : string) (i : nat) :
  find c s 0 = Some i -> find c (take i s) 0 = None.
Proof.
  revert i. induction s as [|a s IH]; intros i H; [done|]. simpl in H.
  destruct (Ascii.eqb a c) eqn:E; [by injection H as <-|].
  destruct (find c s 0) as [j|] eqn:Hj; [|done]. injection H as <-.
  simpl. rewrite E. by rewrite (IH j).
Qed.

Lemma has_sep_count (s : string) : FsPath.has_sep s = false <-> count "/" s = 0.
Proof.
  rewrite <- find_none_count. unfold FsPath.has_sep.
  by destruct (find "/" s 0).
Qed.

End MoreStringFacts.

(** ** The resolver: errors, order of the listing *)

Section ResolverMore.

Import StdString.

Variable storage_key : string.
Variable table : gmap string string.

Lemma visit_long_paths (remote_paths : list RelativePathWithMetadata)
    (seen : gset string) :
  Forall (long_enough storage_key) remote_paths ->
  visit_remote_paths storage_key table remote_paths seen
  = Ok (seen ∪ list_to_set (spec_child_names storage_key table remote_paths)).
Proof.
  intros Hall. revert seen.
  induction Hall as [|[path] rest Hpath _ IH]; intros seen; simpl.
  - f_equal. set_solver.
  - rewrite visit_remote_path_spec by exact Hpath.
    simpl. rewrite IH. unfold spec_child_names. simpl.
    destruct (spec_child_name storage_key table path); simpl; f_equal; set_solver.
Qed.

Lemma visit_short_path (remote_paths : list RelativePathWithMetadata)
    (seen : gset string) :
  Exists (fun e => ~ long_enough storage_key e) remote_paths ->
  visit_remote_paths storage_key table remote_paths seen = Throw OutOfRange.
Proof.
  revert seen. induction remote_paths as [|[path] rest IH]; intros seen Hex.
  - by apply Exists_nil in Hex.
  - simpl. destruct (decide (long_enough storage_key {| relative_path := path |}))
      as [Hlong|Hshort].
    + rewrite visit_remote_path_spec by exact Hlong. simpl.
      apply IH. by apply Exists_cons in Hex as [?|?].
    + rewrite visit_remote_path_throws; [done|].
      unfold long_enough in Hshort. simpl in Hshort. lia.
Qed.

End ResolverMore.

(** X1.  The resolver returns if and only if every listed key is at
    least as long as the storage key; otherwise the exception is that of
    [substr], [std::out_of_range], whatever the Path Map and wherever the
    short key stands in the listing. *)
Theorem resolver_throws_on_short_key
    (storage_key : string) (remote_paths : list RelativePathWithMetadata)
    (local_path : string) (local_path_prefixes : PathMap) :
  match getDirectChildrenOnRewritableDisk storage_key remote_paths local_path
          local_path_prefixes with
  | Ok _ => Forall (long_enough storage_key) remote_paths
  | Throw e =>
      e = OutOfRange
      /\ Exists (fun e => ~ long_enough storage_key e) remote_paths
  end.
Proof.
  unfold getDirectChildrenOnRewritableDisk.
  destruct (decide (Forall (long_enough storage_key) remote_paths)) as [Hall|Hex].
  - by rewrite visit_long_paths.
  - apply not_Forall_Exists in Hex; [|apply _].
    by rewrite visit_short_path.
Qed.

(** X2.  The result depends on the listing as a set only: two listings
    with the same entries, in any order and with any repetitions, give the
    same names up to order, or both throw the same exception. *)
Theorem resolver_listing_as_set
    (storage_key : string) (l1 l2 : list RelativePathWithMetadata)
    (local_path : string) (local_path_prefixes : PathMap) :
  (forall e, e ∈ l1 <-> e ∈ l2) ->
  match getDirectChildrenOnRewritableDisk storage_key l1 local_path local_path_prefixes,
        getDirectChildrenOnRewritableDisk storage_key l2 local_path local_path_prefixes
  with
  | Ok names1, Ok names2 => names1 ≡ₚ names2
  | Throw e1, Throw e2 => e1 = e2
  | _, _ => False
  end.
Proof.
  intros Hsame. unfold getDirectChildrenOnRewritableDisk.
  set (table := build_remote_to_local_subdir local_path local_path_prefixes).
  destruct (decide (Forall (long_enough storage_key) l1)) as [Hall|Hex].
  - assert (Hall2 : Forall (long_enough storage_key) l2).
    { rewrite Forall_forall in Hall |- *. intros e He. apply Hall. by apply Hsame. }
    rewrite !visit_long_paths by done. simpl.
    assert ((∅ ∪ list_to_set (spec_child_names storage_key table l1) : gset string)
            = ∅ ∪ list_to_set (spec_child_names storage_key table l2)) as ->; [|done].
    apply set_eq. intros name.
    rewrite !elem_of_union, !elem_of_list_to_set. unfold spec_child_names.
    rewrite !list_elem_of_omap. set_solver.
  - apply not_Forall_Exists in Hex; [|apply _].
    assert (Hex2 : Exists (fun e => ~ long_enough storage_key e) l2).
    { rewrite Exists_exists in Hex |- *. destruct Hex as (e & He & Hs).
      exists e. split; [by apply Hsame | done]. }
    by rewrite !visit_short_path.
Qed.

Lemma resolver_listing_as_set_witness :
  (forall e, e ∈ [remote_entry "r/a"; remote_entry "r/b/x"; remote_entry "r/a"]
             <-> e ∈ [remote_entry "r/b/x"; remote_entry "r/a"])
  /\ match getDirectChildrenOnRewritableDisk "r/"
             [remote_entry "r/a"; remote_entry "r/b/x"; remote_entry "r/a"] "/" ∅,
           getDirectChildrenOnRewritableDisk "r/"
             [remote_entry "r/b/x"; remote_entry "r/a"] "/" ∅
     with
     | Ok names1, Ok names2 => names1 ≡ₚ names2
     | Throw e1, Throw e2 => e1 = e2
     | _, _ => False
     end.
Proof.
  assert (H : forall e, e ∈ [remote_entry "r/a"; remote_entry "r/b/x"; remote_entry "r/a"]
             <-> e ∈ [remote_entry "r/b/x"; remote_entry "r/a"]).
  { intros e. rewrite !elem_of_cons, !elem_of_nil. tauto. }
  split; [exact H|].
  exact (resolver_listing_as_set "r/" _ _ "/" ∅ H).
Defined.

(** ** The table of the first loop *)

Section TableMore.

Import StdString.

Lemma filter_filter {A} (f g : A -> bool) (l : list A) :
  List.filter f (List.filter g l) = List.filter (fun x => g x && f x) l.
Proof.
  induction l as [|a l IH]; simpl; [done|].
  destruct (g a); simpl; [|done]. destruct (f a); by rewrite IH.
Qed.

Lemma find_unique {A} (f : A -> bool) (l : list A) (a : A) :
  (forall x, x ∈ l -> f x = true -> x = a) ->
  a ∈ l -> f a = true -> List.find f l = Some a.
Proof.
  intros Huniq Hin Ha.
  destruct (List.find f l) as [x|] eqn:E.
  - apply find_some in E as [Hx Hfx].
    f_equal. apply Huniq; [by apply list_elem_of_In | done].
  - apply list_elem_of_In in Hin. by rewrite (find_none _ _ E a Hin) in Ha.
Qed.

Lemma find_as_filter {A} (f : A -> bool) (l : list A) :
  List.find f l = head (List.filter f l).
Proof.
  induction l as [|a l IH]; simpl; [done|]. by destruct (f a).
Qed.

Lemma direct_children_entries_elem (local_path : string) (m : PathMap)
    (k v : string) :
  (k, v) ∈ direct_children_entries local_path m
  <-> m !! k = Some v
      /\ starts_with k local_path = true
      /\ count_from (size local_path) k "/" = 1.
Proof.
  unfold direct_children_entries.
  rewrite list_elem_of_In, filter_In, <- list_elem_of_In, path_map_entries_lookup.
  unfold is_direct_child. simpl.
  rewrite andb_true_iff, Nat.eqb_eq. tauto.
Qed.

(** The table in one equation, for paths without adjacent separators: a
    remote prefix is mapped to the child name of the first direct child,
    in key order, that has it. *)
Lemma table_lookup (local_path : string) (m : PathMap) (remote : string) :
  FsPath.normal local_path = true ->
  (forall k v, m !! k = Some v -> FsPath.normal k = true) ->
  build_remote_to_local_subdir local_path m !! remote
  = (fun e => child_name local_path e.1)
      <$> List.find (fun e => bool_decide (e.2 = remote))
            (direct_children_entries local_path m).
Proof.
  intros Hq Hm. unfold build_remote_to_local_subdir, lower_bound.
  rewrite scan_as_fold, lower_bound_visited;
    [|done|by apply path_map_entries_normal|apply path_map_entries_sorted].
  rewrite fold_add_subdir_lookup, lookup_empty, filter_filter.
  reflexivity.
Qed.

(** Whatever the keys are, an entry of the table comes from a direct
    child. *)
Lemma table_lookup_Some (local_path : string) (m : PathMap) (remote name : string) :
  build_remote_to_local_subdir local_path m !! remote = Some name ->
  exists k, (k, remote) ∈ direct_children_entries local_path m
            /\ name = child_name local_path k.
Proof.
  unfold build_remote_to_local_subdir, lower_bound.
  rewrite scan_as_fold, fold_add_subdir_lookup, lookup_empty.
  destruct (List.find _ _) as [[k v]|] eqn:E; [|done].
  intros [= <-]. apply find_some in E as [Hin Hv].
  apply bool_decide_eq_true in Hv. simpl in Hv. subst v.
  apply filter_In in Hin as [Hin Hdc]. apply list_elem_of_In in Hin.
  apply visited_entries_elem in Hin as [Hin Hsw].
  apply lower_bound_from_elem in Hin.
  exists k. split; [|done].
  unfold direct_children_entries. apply list_elem_of_In, filter_In.
  split; [by apply list_elem_of_In|]. by rewrite Hsw, Hdc.
Qed.

(** The child name of the key [local_path ++ name ++ "/"]. *)
Lemma child_name_of_subdir (local_path name : string) :
  child_name local_path (local_path +:+ name +:+ "/") = name.
Proof.
  unfold child_name, range_drop_last.
  rewrite str_drop_append, !str_size_append. simpl.
  replace (size local_path + (size name + 1) - 1 - size local_path)
    with (size name) by lia.
  apply take_size_append.
Qed.

Lemma subdir_is_direct_child (local_path name : string) :
  FsPath.has_sep name = false ->
  starts_with (local_path +:+ name +:+ "/") local_path = true
  /\ count_from (size local_path) (local_path +:+ name +:+ "/") "/" = 1.
Proof.
  intros Hname. split; [apply starts_with_append|].
  unfold count_from. rewrite str_drop_append, str_count_append.
  apply has_sep_count in Hname. rewrite Hname. reflexivity.
Qed.

End TableMore.

(** X3.  When every key of the Path Map ends with a separator (the
    assertion of the first loop), no name the resolver returns contains a
    separator: each one is a single path component. *)
Theorem resolver_names_are_components
    (storage_key : string) (remote_paths : list RelativePathWithMetadata)
    (local_path : string) (m : PathMap) (names : list string) :
  (forall k v, m !! k = Some v -> chassert_back_is_sep k = true) ->
  getDirectChildrenOnRewritableDisk storage_key remote_paths local_path m = Ok names ->
  forall name, name ∈ names -> FsPath.has_sep name = false.
Proof.
  intros Hback. unfold getDirectChildrenOnRewritableDisk.
  destruct (decide (Forall (long_enough storage_key) remote_paths)) as [Hall|Hex].
  2: { apply not_Forall_Exists in Hex; [|apply _]. by rewrite visit_short_path. }
  rewrite visit_long_paths by done. simpl. intros [= <-] name.
  rewrite elem_of_elements, elem_of_union, elem_of_list_to_set.
  intros [Hin|Hin]; [by apply elem_of_empty in Hin|].
  unfold spec_child_names in Hin. apply list_elem_of_omap in Hin as (e & _ & Hname).
  unfold spec_child_name in Hname.
  destruct (StdString.find "/" (StdString.drop _ (relative_path e)) 0)
    as [i|] eqn:Hfind.
  - destruct (build_remote_to_local_subdir local_path m !! _) as [local_subdir|] eqn:Ht.
    + injection Hname as <-.
      apply table_lookup_Some in Ht as (k & Hk & ->).
      apply direct_children_entries_elem in Hk as (Hm & Hsw & Hcount).
      specialize (Hback _ _ Hm). unfold chassert_back_is_sep in Hback.
      apply bool_decide_eq_true in Hback.
      apply has_sep_count.
      by destruct (child_name_trailing_sep local_path k Hsw Hcount Hback).
    + injection Hname as <-. unfold FsPath.has_sep.
      by rewrite (find_take_none _ _ _ Hfind).
  - destruct (String.eqb _ PREFIX_PATH_FILE_NAME); [done|].
    injection Hname as <-. unfold FsPath.has_sep. by rewrite Hfind.
Qed.

Lemma resolver_names_are_components_witness :
  (forall k v, example_path_map "" !! k = Some v -> chassert_back_is_sep k = true)
  /\ exists names,
      getDirectChildrenOnRewritableDisk "" (example_listing "") "/a/"
        (example_path_map "") = Ok names
      /\ forall name, name ∈ names -> FsPath.has_sep name = false.
Proof.
  assert (H : forall k v, example_path_map "" !! k = Some v
                          -> chassert_back_is_sep k = true).
  { intros k v. unfold example_path_map.
    rewrite lookup_insert. case_decide; [by subst|].
    rewrite lookup_insert. case_decide; [by subst|]. by rewrite lookup_empty. }
  split; [exact H|].
  destruct (getDirectChildrenOnRewritableDisk "" (example_listing "") "/a/"
              (example_path_map "")) as [names|e] eqn:E; [|by vm_compute in E].
  exists names. split; [reflexivity|].
  exact (resolver_names_are_components "" _ "/a/" _ names H E).
Defined.

(** X4.  Let neither the query path nor a key of the Path Map have two
    adjacent separators.  A subdirectory that the Path Map homes at a
    remote prefix lying directly under the storage key is listed under its
    local name: if the key [local_path ++ name ++ "/"] is mapped to
    [remote], no other key is mapped to [remote], and the listing holds a
    key below [remote], then [name] is among the names returned. *)
Theorem mapped_subdirectory_listed_by_local_name
    (storage_key : string) (remote_paths : list RelativePathWithMetadata)
    (local_path : string) (m : PathMap) (name remote rest : string) :
  FsPath.normal local_path = true ->
  (forall k v, m !! k = Some v -> FsPath.normal k = true) ->
  m !! (local_path +:+ name +:+ "/") = Some remote ->
  FsPath.has_sep name = false ->
  (forall k, m !! k = Some remote -> k = local_path +:+ name +:+ "/") ->
  StdString.starts_with remote storage_key = true ->
  FsPath.has_sep (StdString.drop (StdString.size storage_key) remote) = false ->
  Forall (long_enough storage_key) remote_paths ->
  remote_entry (remote +:+ "/" +:+ rest) ∈ remote_paths ->
  exists names,
    getDirectChildrenOnRewritableDisk storage_key remote_paths local_path m = Ok names
    /\ name ∈ names.
Proof.
  intros Hq Hnormal Hm Hname Honly Hunder Hflat Hall Hin.
  unfold getDirectChildrenOnRewritableDisk.
  rewrite visit_long_paths by done. simpl.
  eexists. split; [reflexivity|].
  rewrite elem_of_elements, elem_of_union, elem_of_list_to_set. right.
  unfold spec_child_names. apply list_elem_of_omap.
  exists (remote_entry (remote +:+ "/" +:+ rest)). split; [done|]. simpl.
  (* the table maps [remote] to [name] *)
  assert (Htable : build_remote_to_local_subdir local_path m !! remote = Some name).
  { rewrite table_lookup by done.
    destruct (subdir_is_direct_child local_path name Hname) as [Hsw Hcount].
    rewrite (find_unique _ _ (local_path +:+ name +:+ "/", remote)).
    - simpl. by rewrite child_name_of_subdir.
    - intros [k v] Hk Hv. apply bool_decide_eq_true in Hv. simpl in Hv. subst v.
      apply direct_children_entries_elem in Hk as (Hk & _). by rewrite (Honly k Hk).
    - by apply direct_children_entries_elem.
    - by apply bool_decide_eq_true. }
  (* the listed key is cut at the end of [remote] *)
  unfold spec_child_name.
  pose proof (starts_with_split _ _ Hunder) as Hsplit.
  set (tail := StdString.drop (StdString.size storage_key) remote) in *.
  assert (Hfind : StdString.find "/" tail 0 = None).
  { unfold FsPath.has_sep in Hflat. by destruct (StdString.find "/" tail 0). }
  assert (Hpath : remote +:+ "/" +:+ rest
                  = storage_key +:+ (tail +:+ String "/" rest)).
  { rewrite Hsplit at 1. apply str_append_assoc. }
  rewrite Hpath, str_drop_append.
  rewrite (find_append_sep "/" tail rest Hfind).
  rewrite str_take_append, take_size_append, <- Hsplit.
  by rewrite Htable.
Qed.

Lemma mapped_subdirectory_listed_by_local_name_witness :
  exists names,
    getDirectChildrenOnRewritableDisk "root/" (example_listing "root/") "/a/"
      (example_path_map "root/") = Ok names
    /\ "b" ∈ names.
Proof.
  apply (mapped_subdirectory_listed_by_local_name "root/" (example_listing "root/")
           "/a/" (example_path_map "root/") "b" "root/p1" "file1").
  - reflexivity.
  - apply (bool_decide_unpack
             (map_Forall (fun k _ => FsPath.normal k = true)
                (example_path_map "root/"))).
    vm_compute. exact I.
  - reflexivity.
  - reflexivity.
  - intros k. unfold example_path_map.
    rewrite lookup_insert. case_decide; [done|].
    rewrite lookup_insert. case_decide; [by subst|]. by rewrite lookup_empty.
  - reflexivity.
  - reflexivity.
  - repeat constructor; unfold long_enough; simpl; lia.
  - apply list_elem_of_here.
Defined.

(** ** Insertions into the Path Map and the table *)

Section TableFrame.

Import StdString.

Lemma bfilter_Permutation {A} (f : A -> bool) (l1 l2 : list A) :
  l1 ≡ₚ l2 -> List.filter f l1 ≡ₚ List.filter f l2.
Proof.
  induction 1 as [|x l1 l2 _ IH|x y l|l1 l2 l3 _ IH1 _ IH2]; simpl.
  - done.
  - destruct (f x); [by constructor | done].
  - destruct (f x), (f y); try done. apply perm_swap.
  - by etrans.
Qed.

Lemma bfilter_elem_of {A} (f : A -> bool) (l : list A) (x : A) :
  x ∈ List.filter f l <-> x ∈ l /\ f x = true.
Proof. by rewrite !list_elem_of_In, filter_In. Qed.

Lemma bfilter_StronglySorted {A} (R : relation A) (f : A -> bool) (l : list A) :
  StronglySorted R l -> StronglySorted R (List.filter f l).
Proof.
  induction 1 as [|x l Hs IH Hall]; simpl; [constructor|].
  destruct (f x); [|done]. constructor; [done|].
  rewrite Forall_forall in Hall |- *. intros y [Hy _]%bfilter_elem_of. by apply Hall.
Qed.

(** A new entry on which a filter is false does not change what the
    filter keeps of the ordered entries. *)
Lemma filter_entries_insert (f : string * string -> bool) (m : PathMap)
    (k v : string) :
  (forall k' v', <[k := v]> m !! k' = Some v' -> FsPath.normal k' = true) ->
  m !! k = None -> f (k, v) = false ->
  List.filter f (path_map_entries (<[k := v]> m))
  = List.filter f (path_map_entries m).
Proof.
  intros Hnormal Hfresh Hf.
  apply (StronglySorted_unique_strong key_le).
  - intros [k1 v1] [k2 v2] [H1 Hf1]%bfilter_elem_of [H2 _]%bfilter_elem_of Hle Hge.
    unfold key_le in *. simpl in *.
    apply path_map_entries_lookup in H1, H2.
    assert (k1 = k2) as ->.
    { apply normal_equivalent; [by eapply Hnormal | | by apply le_antisym].
      apply (Hnormal k2 v2). destruct (decide (k = k2)) as [->|Hne].
      - rewrite lookup_insert_eq. congruence.
      - by rewrite lookup_insert_ne. }
    destruct (decide (k = k2)) as [->|Hne].
    + rewrite lookup_insert_eq in H1. injection H1 as ->. congruence.
    + rewrite lookup_insert_ne in H1 by done. congruence.
  - apply bfilter_StronglySorted, path_map_entries_sorted.
  - apply bfilter_StronglySorted, path_map_entries_sorted.
  - unfold path_map_entries.
    etrans; [apply bfilter_Permutation, merge_sort_Permutation|].
    etrans; [apply bfilter_Permutation, (map_to_list_insert m k v Hfresh)|].
    simpl. rewrite Hf.
    symmetry. apply bfilter_Permutation, merge_sort_Permutation.
Qed.

End TableFrame.

(** X5.  Let neither the query path nor a key have two adjacent
    separators.  A directory added to the Path Map that is not directly
    under [local_path] (it lies outside of it, is [local_path] itself, or
    lies deeper) changes nothing in what the resolver returns for
    [local_path]. *)
Theorem resolver_ignores_other_directories
    (storage_key : string) (remote_paths : list RelativePathWithMetadata)
    (local_path : string) (m : PathMap) (k v : string) :
  FsPath.normal local_path = true ->
  (forall k' v', m !! k' = Some v' -> FsPath.normal k' = true) ->
  FsPath.normal k = true ->
  m !! k = None ->
  StdString.starts_with k local_path && is_direct_child local_path (k, v) = false ->
  getDirectChildrenOnRewritableDisk storage_key remote_paths local_path (<[k := v]> m)
  = getDirectChildrenOnRewritableDisk storage_key remote_paths local_path m.
Proof.
  intros Hq Hnormal Hk Hfresh Hother. unfold getDirectChildrenOnRewritableDisk.
  assert (Hnormal' : forall k' v',
             <[k := v]> m !! k' = Some v' -> FsPath.normal k' = true).
  { intros k' v' [[<- _]|[_ H]]%lookup_insert_Some; [done | by eapply Hnormal]. }
  assert (build_remote_to_local_subdir local_path (<[k := v]> m)
          = build_remote_to_local_subdir local_path m) as ->; [|done].
  apply map_eq. intros remote. rewrite !table_lookup by done.
  unfold direct_children_entries. by rewrite filter_entries_insert.
Qed.

Lemma resolver_ignores_other_directories_witness :
  example_path_map "" !! "/a/b/deep/" = None
  /\ getDirectChildrenOnRewritableDisk "" (example_listing "") "/a/"
       (<[ "/a/b/deep/" := "p1" ]> (example_path_map ""))
     = getDirectChildrenOnRewritableDisk "" (example_listing "") "/a/"
         (example_path_map "").
Proof.
  split; [reflexivity|].
  apply resolver_ignores_other_directories; try reflexivity.
  apply (bool_decide_unpack
           (map_Forall (fun k _ => FsPath.normal k = true) (example_path_map ""))).
  vm_compute. exact I.
Defined.

(** X6.  Let neither the query path nor a key, the new one included,
    have two adjacent separators.  A new directory directly under
    [local_path], homed at a remote prefix that no entry of the Path Map
    has, adds one entry to the table of the first loop: the remote prefix
    mapped to the local name. *)
Theorem new_subdirectory_extends_table
    (local_path name remote : string) (m : PathMap) :
  FsPath.normal local_path = true ->
  (forall k v, m !! k = Some v -> FsPath.normal k = true) ->
  FsPath.normal (local_path +:+ name +:+ "/") = true ->
  m !! (local_path +:+ name +:+ "/") = None ->
  (forall k v, m !! k = Some v -> v <> remote) ->
  FsPath.has_sep name = false ->
  build_remote_to_local_subdir local_path
    (<[ local_path +:+ name +:+ "/" := remote ]> m)
  = <[ remote := name ]> (build_remote_to_local_subdir local_path m).
Proof.
  intros Hq Hnormal Hk Hfresh Hnew Hname.
  set (k := local_path +:+ name +:+ "/") in *.
  assert (Hnormal' : forall k' v',
             <[k := remote]> m !! k' = Some v' -> FsPath.normal k' = true).
  { intros k' v' [[<- _]|[_ H]]%lookup_insert_Some; [done | by eapply Hnormal]. }
  destruct (subdir_is_direct_child local_path name Hname) as [Hsw Hcount].
  apply map_eq. intros r. rewrite table_lookup by done.
  destruct (decide (remote = r)) as [<-|Hne].
  - rewrite lookup_insert_eq.
    rewrite (find_unique _ _ (k, remote)).
    + simpl. unfold k. by rewrite child_name_of_subdir.
    + intros [k' v'] Hk' Hv'. apply bool_decide_eq_true in Hv'. simpl in Hv'. subst v'.
      apply direct_children_entries_elem in Hk' as (Hk' & _).
      destruct (decide (k = k')) as [<-|Hkk]; [done|].
      rewrite lookup_insert_ne in Hk' by done. by apply Hnew in Hk'.
    + apply direct_children_entries_elem. by rewrite lookup_insert_eq.
    + by apply bool_decide_eq_true.
  - rewrite lookup_insert_ne, table_lookup by done.
    f_equal. rewrite !(find_as_filter _ (direct_children_entries _ _)).
    unfold direct_children_entries. rewrite !filter_filter.
    rewrite filter_entries_insert; [done | done | done |].
    simpl. rewrite bool_decide_eq_false_2 by done. apply andb_false_r.
Qed.

Lemma new_subdirectory_extends_table_witness :
  example_path_map "" !! "/a/d/" = None
  /\ build_remote_to_local_subdir "/a/" (<[ "/a/d/" := "p9" ]> (example_path_map ""))
     = <[ "p9" := "d" ]> (build_remote_to_local_subdir "/a/" (example_path_map "")).
Proof.
  split; [reflexivity|].
  apply (new_subdirectory_extends_table "/a/" "d" "p9" (example_path_map "")).
  - reflexivity.
  - apply (bool_decide_unpack
             (map_Forall (fun k _ => FsPath.normal k = true) (example_path_map ""))).
    vm_compute. exact I.
  - reflexivity.
  - reflexivity.
  - intros k v. unfold example_path_map.
    rewrite lookup_insert. case_decide; [by intros [= <-]|].
    rewrite lookup_insert. case_decide; [by intros [= <-]|]. by rewrite lookup_empty.
  - reflexivity.
Defined.

(** ** The loader: what it reads, what the schedule decides *)

Section LoaderMore.

Variable USE_AWS_S3 : bool.
Variable os : ObjectStorage.

Lemma reads_of_app (a b : list Event) : reads_of (a ++ b) = reads_of a ++ reads_of b.
Proof. unfold reads_of. apply omap_app. Qed.

Lemma reads_of_units_events (units : list string) (m : PathMap) :
  reads_of (units_events os units m) = units.
Proof.
  revert m. induction units as [|path rest IH]; intros m; [done|].
  simpl. rewrite reads_of_app, IH. unfold unit_events.
  destruct (readObject os path) as [p|e]; [|done].
  by destruct (path_find p m) as [[k mapped]|].
Qed.

Lemma units_events_no_keys_generator (units : list string) (m : PathMap) :
  List.filter is_keys_generator_event (units_events os units m) = [].
Proof.
  revert m. induction units as [|path rest IH]; intros m; [done|].
  simpl. rewrite List.filter_app, IH.
  destruct (readObject os path) as [p|e]; [|done].
  by destruct (path_find p m) as [[k mapped]|].
Qed.

Lemma units_events_metric_free (units : list string) (m : PathMap) :
  List.filter is_metric_event (units_events os units m) = [].
Proof.
  revert m. induction units as [|path rest IH]; intros m; [done|].
  simpl. rewrite List.filter_app, IH.
  destruct (readObject os path) as [p|e]; [|done].
  by destruct (path_find p m) as [[k mapped]|].
Qed.

Lemma first_error_None (futures : list (Result unit)) :
  first_error futures = None <-> Forall (fun r => is_Ok r = true) futures.
Proof.
  induction futures as [|[[]|e] rest IH]; simpl.
  - split; [constructor | done].
  - rewrite IH. split; [by constructor | by intros [_ ?]%Forall_cons].
  - split; [done | by intros [? _]%Forall_cons].
Qed.

Lemma first_error_perm (units1 units2 : list string) :
  units1 ≡ₚ units2 ->
  first_error (map (unit_future USE_AWS_S3 os) units1) = None ->
  first_error (map (unit_future USE_AWS_S3 os) units2) = None.
Proof.
  intros Hperm. rewrite !first_error_None.
  change (map ?f ?l) with (f <$> l). by rewrite Hperm.
Qed.

(** Without two markers for one path, the order of the units does not
    decide the map. *)
Lemma units_result_perm (units1 units2 : list string) :
  units1 ≡ₚ units2 ->
  NoDup (FsPath.path_key <$> local_paths os units1) ->
  units_result os units1 ∅ = units_result os units2 ∅.
Proof.
  intros Hperm Hnd.
  assert (Hnd2 : NoDup (FsPath.path_key <$> local_paths os units2))
    by by rewrite <- (local_paths_perm os _ _ Hperm).
  assert (Hiff : forall p r,
             units_result os units1 ∅ !! p = Some r
             <-> units_result os units2 ∅ !! p = Some r).
  { intros p r. rewrite !units_result_lookup_distinct by done.
    by setoid_rewrite Hperm. }
  apply map_eq. intros p.
  destruct (units_result os units1 ∅ !! p) as [r|] eqn:E1.
  - symmetry. by apply Hiff.
  - destruct (units_result os units2 ∅ !! p) as [r|] eqn:E2; [|done].
    apply Hiff in E2. congruence.
Qed.

End LoaderMore.

(** X7.  Whatever the outcome of the load, the objects it reads are the
    listed keys whose final component is the marker name, each once for
    each time it is listed, and no other object. *)
Theorem loader_reads_markers_only
    (USE_AWS_S3 : bool) (pool : ThreadPool) (os : ObjectStorage)
    (root : string) (w : World) :
  fair pool ->
  reads_of (trace (loadPathPrefixMap USE_AWS_S3 pool root os w).2)
  ≡ₚ reads_of (trace w) ++ List.filter is_marker_key (iterate os root).
Proof.
  intros Hfair. rewrite loadPathPrefixMap_eq.
  assert (Hscan : reads_of (trace w ++ EvIterate root
            :: units_events os (schedule pool (scheduled_units os root)) ∅)
          ≡ₚ reads_of (trace w) ++ List.filter is_marker_key (iterate os root)).
  { rewrite reads_of_app. apply Permutation_app_head.
    change (reads_of (EvIterate root :: ?l)) with (reads_of l).
    rewrite reads_of_units_events. apply Hfair. }
  destruct (first_error _); simpl; [exact Hscan|].
  rewrite reads_of_app. simpl. by rewrite app_nil_r.
Qed.

Lemma loader_reads_markers_only_witness :
  fair lifo_pool
  /\ reads_of (trace (loadPathPrefixMap true lifo_pool "root/"
                        (storage_of false plain_objects) world0).2)
     ≡ₚ ["root/d1/prefix.path"; "root/d2/prefix.path"].
Proof.
  assert (Hfair : fair lifo_pool) by (intros units; symmetry; apply Permutation_rev).
  split; [exact Hfair|].
  exact (loader_reads_markers_only true lifo_pool (storage_of false plain_objects)
           "root/" world0 Hfair).
Defined.

(** X8.  The order in which the pool runs the units decides neither
    whether the load returns, nor which paths are keys of the map, nor how
    many entries it has; and when no two markers carry the same path, it
    does not decide the map either. *)
Theorem loader_schedule_independence
    (USE_AWS_S3 : bool) (pool1 pool2 : ThreadPool) (os : ObjectStorage)
    (root : string) (w : World) :
  fair pool1 -> fair pool2 ->
  match (loadPathPrefixMap USE_AWS_S3 pool1 root os w).1,
        (loadPathPrefixMap USE_AWS_S3 pool2 root os w).1 with
  | Ok m1, Ok m2 =>
      path_keys m1 = path_keys m2
      /\ (forall p, is_Some (path_find p m1) <-> is_Some (path_find p m2))
      /\ size m1 = size m2
      /\ (NoDup (FsPath.path_key <$> local_paths os (scheduled_units os root))
          -> m1 = m2)
  | Throw _, Throw _ => True
  | _, _ => False
  end.
Proof.
  intros Hfair1 Hfair2. rewrite !loadPathPrefixMap_eq.
  set (units1 := schedule pool1 (scheduled_units os root)).
  set (units2 := schedule pool2 (scheduled_units os root)).
  assert (Hperm : units1 ≡ₚ units2).
  { unfold units1, units2. etrans; [apply Hfair1|]. symmetry. apply Hfair2. }
  destruct (first_error (map (unit_future USE_AWS_S3 os) units1)) as [e1|] eqn:E1;
    destruct (first_error (map (unit_future USE_AWS_S3 os) units2)) as [e2|] eqn:E2;
    simpl; try done.
  - by rewrite (first_error_perm USE_AWS_S3 os units2 units1) in E1.
  - by rewrite (first_error_perm USE_AWS_S3 os units1 units2) in E2.
  - assert (Hkeys : path_keys (units_result os units1 ∅)
                    = path_keys (units_result os units2 ∅)).
    { rewrite !units_result_path_keys. f_equal. apply set_eq. intros x.
      rewrite !elem_of_list_to_set. by rewrite (local_paths_perm os _ _ Hperm). }
    split; [exact Hkeys|]. split; [|split].
    + assert (Hfound : forall units p,
                 is_Some (path_find p (units_result os units ∅))
                 <-> FsPath.path_key p ∈ path_keys (units_result os units ∅)).
      { intros units p. rewrite elem_of_path_keys. split.
        - intros [e He]. apply path_find_Some in He as [Hl He].
          exists e.1. split; [by eexists|].
          symmetry. by apply equivalent_path_key.
        - intros (k & [v Hv] & Hk).
          rewrite (path_find_wf _ p k v); [by eexists | | done |].
          + apply units_result_wf, path_map_wf_empty.
          + by apply equivalent_path_key. }
      intros p. by rewrite !Hfound, Hkeys.
    + rewrite <- !path_keys_size by apply units_result_wf, path_map_wf_empty.
      by rewrite Hkeys.
    + intros Hnd. apply units_result_perm; [done|].
      by rewrite (local_paths_perm os units1 _ (Hfair1 _)).
Qed.

Lemma loader_schedule_independence_witness :
  fair fifo_pool /\ fair lifo_pool
  /\ match (loadPathPrefixMap true fifo_pool "root/"
              (storage_of false aliased_objects) world0).1,
           (loadPathPrefixMap true lifo_pool "root/"
              (storage_of false aliased_objects) world0).1 with
     | Ok m1, Ok m2 =>
         path_keys m1 = path_keys m2
         /\ (forall p, is_Some (path_find p m1) <-> is_Some (path_find p m2))
         /\ size m1 = size m2
         /\ (NoDup (FsPath.path_key
                      <$> local_paths (storage_of false aliased_objects)
                            (scheduled_units (storage_of false aliased_objects) "root/"))
             -> m1 = m2)
     | Throw _, Throw _ => True
     | _, _ => False
     end.
Proof.
  assert (Hfifo : fair fifo_pool) by (intros units; reflexivity).
  assert (Hlifo : fair lifo_pool) by (intros units; symmetry; apply Permutation_rev).
  split; [exact Hfifo|]. split; [exact Hlifo|].
  exact (loader_schedule_independence true fifo_pool lifo_pool
           (storage_of false aliased_objects) "root/" world0 Hfifo Hlifo).
Defined.

(** The order decides which of two strings for one path is stored. *)
Example aliased_local_paths_reversed :
  (loadPathPrefixMap true lifo_pool "root/" (storage_of false aliased_objects) world0).1
  = Ok (<[ "/a//b/" := "root/d2" ]> ∅).
Proof. by vm_compute. Qed.

(** X9.  When the load returns, with or without markers that share a
    local path and with or without tolerated read failures, every entry of
    the map is the local path and the parent path of a listed marker that
    was read, and the local path of every listed marker that was read is a
    key of the map: the map finds an entry for it. *)
Theorem loaded_map_sound_and_complete
    (USE_AWS_S3 : bool) (pool : ThreadPool) (os : ObjectStorage)
    (root : string) (w w' : World) (loaded : PathMap) :
  fair pool ->
  loadPathPrefixMap USE_AWS_S3 pool root os w = (Ok loaded, w') ->
  (forall local_path remote_prefix : string,
      loaded !! local_path = Some remote_prefix ->
      exists key : string,
        In key (iterate os root)
        /\ FsPath.filename key = PREFIX_PATH_FILE_NAME
        /\ readObject os key = Ok local_path
        /\ remote_prefix = FsPath.parent_path key)
  /\ (forall key local_path : string,
        In key (iterate os root) ->
        FsPath.filename key = PREFIX_PATH_FILE_NAME ->
        readObject os key = Ok local_path ->
        is_Some (path_find local_path loaded)).
Proof.
  intros Hfair. rewrite loadPathPrefixMap_eq.
  set (units := schedule pool (scheduled_units os root)).
  assert (Hperm : units ≡ₚ scheduled_units os root) by apply Hfair.
  destruct (first_error _); [done|]. intros [= <- _]. split.
  - intros local_path remote_prefix
      [H|(key & Hin & Hread & ->)]%units_result_lookup_sound;
      [by rewrite lookup_empty in H|].
    rewrite Hperm in Hin. apply list_elem_of_In, filter_In in Hin as [Hin Hm].
    exists key. repeat split; try done. by apply String.eqb_eq.
  - intros key local_path Hin Hname Hread.
    rewrite units_result_find by apply path_map_wf_empty.
    assert (path_find local_path ∅ = None) as -> by done.
    assert (Hkey : key ∈ units).
    { rewrite Hperm. apply list_elem_of_In, filter_In. split; [done|].
      by apply String.eqb_eq. }
    destruct (first_unit_for_is_Some os units local_path key local_path
                Hkey Hread (equivalent_refl _)) as [key' E].
    rewrite E. simpl.
    apply first_unit_for_Some in E as (_ & q' & Hread' & _).
    unfold marker_entry. rewrite Hread'. by eexists.
Qed.

Lemma loaded_map_sound_and_complete_witness :
  fair fifo_pool
  /\ exists loaded w',
      loadPathPrefixMap true fifo_pool "root/" (storage_of false racy_objects) world0
      = (Ok loaded, w')
      /\ is_Some (path_find "/c/" loaded).
Proof.
  assert (Hfifo : fair fifo_pool) by (intros units; reflexivity).
  split; [exact Hfifo|].
  destruct (loadPathPrefixMap true fifo_pool "root/" (storage_of false racy_objects) world0)
    as [[loaded|e] w'] eqn:E; [|by vm_compute in E].
  exists loaded, w'. split; [reflexivity|].
  destruct (loaded_map_sound_and_complete true fifo_pool (storage_of false racy_objects)
              "root/" world0 w' loaded Hfifo E) as [_ Hcomplete].
  apply (Hcomplete "root/d3/prefix.path" "/c/"); [|reflexivity|reflexivity].
  right. right. left. reflexivity.
Defined.

(** X10.  When the load returns, every marker that was read is accounted
    for once: the number of entries of the map plus the number of warnings
    logged is the number of markers read, so the map never has more entries
    than there are listed markers. *)
Theorem loaded_entries_and_warnings
    (USE_AWS_S3 : bool) (pool : ThreadPool) (os : ObjectStorage)
    (root : string) (w w' : World) (loaded : PathMap) :
  fair pool ->
  loadPathPrefixMap USE_AWS_S3 pool root os w = (Ok loaded, w') ->
  size loaded + length (List.filter is_warning (trace w'))
  = length (List.filter is_warning (trace w))
    + length (local_paths os (scheduled_units os root))
  /\ size loaded <= length (scheduled_units os root).
Proof.
  intros Hfair. rewrite loadPathPrefixMap_eq.
  set (units := schedule pool (scheduled_units os root)).
  assert (Hperm : units ≡ₚ scheduled_units os root) by apply Hfair.
  destruct (first_error _); [done|]. intros [= <- <-]. simpl.
  pose proof (units_warnings os units ∅) as Hw. rewrite map_size_empty in Hw.
  rewrite <- (local_paths_perm os _ _ Hperm).
  rewrite !List.filter_app, !length_app. simpl.
  assert (length (local_paths os (scheduled_units os root))
          <= length (scheduled_units os root)) as Hle.
  { clear. induction (scheduled_units os root) as [|a l IH]; [done|].
    rewrite local_paths_cons. destruct (readObject os a); simpl; lia. }
  rewrite <- (local_paths_perm os _ _ Hperm) in Hle.
  split; lia.
Qed.

Lemma loaded_entries_and_warnings_witness :
  fair lifo_pool
  /\ exists loaded w',
      loadPathPrefixMap true lifo_pool "root/" (storage_of false replicated_objects) world0
      = (Ok loaded, w')
      /\ size loaded + length (List.filter is_warning (trace w')) = 3.
Proof.
  assert (Hlifo : fair lifo_pool) by (intros units; symmetry; apply Permutation_rev).
  split; [exact Hlifo|].
  destruct (loadPathPrefixMap true lifo_pool "root/" (storage_of false replicated_objects) world0)
    as [[loaded|e] w'] eqn:E; [|by vm_compute in E].
  exists loaded, w'. split; [reflexivity|].
  destruct (loaded_entries_and_warnings true lifo_pool (storage_of false replicated_objects)
              "root/" world0 w' loaded Hlifo E) as [Hcount _].
  rewrite Hcount. reflexivity.
Defined.

(** ** Marker keys and their parent paths *)

Section MarkerKeyFacts.

Import FsPath.

Lemma rsplit_dir_name (d f : string) :
  has_sep f = false -> rsplit (d +:+ "/" +:+ f) = (d +:+ "/", f).
Proof.
  intros Hf. induction d as [|c d IH].
  - rewrite !append_empty. change ("/" +:+ f) with (String "/" f).
    simpl. by rewrite (rsplit_dir_empty f Hf).
  - rewrite !(append_cons c d). simpl. rewrite IH.
    destruct d; [rewrite append_empty | rewrite append_cons]; done.
Qed.

Lemma rstrip_seps_trailing (d : string) :
  rstrip_seps (d +:+ "/") = rstrip_seps d.
Proof.
  induction d as [|c d IH]; [done|].
  rewrite append_cons. simpl. by rewrite IH.
Qed.

Lemma rstrip_seps_id (d : string) (c : ascii) :
  StdString.back d = Some c -> is_sep c = false -> rstrip_seps d = d.
Proof.
  intros Hback Hc. induction d as [|a d IH]; [done|].
  destruct d as [|b d].
  - injection Hback as ->. simpl. by rewrite Hc.
  - change (StdString.back (String a (String b d)))
      with (StdString.back (String b d)) in Hback.
    specialize (IH Hback).
    change (rstrip_seps (String a (String b d)))
      with (match rstrip_seps (String b d) with
            | "" => if is_sep a then "" else String a ""
            | r => String a r
            end).
    by rewrite IH.
Qed.

Lemma parent_path_of_marker (remote : string) :
  remote <> "" -> chassert_back_is_sep remote = false ->
  parent_path (remote +:+ "/" +:+ PREFIX_PATH_FILE_NAME) = remote
  /\ filename (remote +:+ "/" +:+ PREFIX_PATH_FILE_NAME) = PREFIX_PATH_FILE_NAME.
Proof.
  intros Hne Hback. unfold parent_path, filename.
  rewrite rsplit_dir_name by reflexivity. simpl.
  rewrite rstrip_seps_trailing.
  assert (rstrip_seps remote = remote) as ->.
  { unfold chassert_back_is_sep in Hback. apply bool_decide_eq_false in Hback.
    destruct (StdString.back remote) as [c|] eqn:E.
    - apply (rstrip_seps_id remote c E). unfold is_sep.
      apply Ascii.eqb_neq. congruence.
    - destruct remote as [|a [|b r]]; try done.
      exfalso. clear -E. revert a b E.
      induction r as [|x r IH]; intros a b E; [done|]. by apply (IH b x). }
  split; [|done]. by destruct remote.
Qed.

End MarkerKeyFacts.

(** X11.  For a key the loader selects, the assertion before the
    insertion holds exactly when the key contains a separator.  A selected
    key without one is the bare marker name; its parent path is empty, and
    outside debug builds its unit maps the local path to the empty remote
    prefix, when this local path is not yet a key of the map. *)
Theorem selected_key_assertion_iff_separator (key : string) :
  is_marker_key key = true ->
  chassert_has_parent_path key = FsPath.has_sep key
  /\ (FsPath.has_sep key = false ->
      key = PREFIX_PATH_FILE_NAME
      /\ forall (USE_AWS_S3 : bool) (os : ObjectStorage) (result : PathMap)
                (w : World) (local_path : string),
          readObject os key = Ok local_path ->
          path_find local_path result = None ->
          load_unit USE_AWS_S3 os key result w
          = (Ok (<[ local_path := "" ]> result), add_trace w [EvReadObject key])).
Proof.
  intros Hmarker. unfold is_marker_key in Hmarker. apply String.eqb_eq in Hmarker.
  destruct (FsPath.has_sep key) eqn:Hsep.
  - split; [|done].
    unfold chassert_has_parent_path, FsPath.has_parent_path.
    apply negb_true_iff, String.eqb_neq, parent_path_nonempty; [|done].
    by rewrite Hmarker.
  - assert (Hkey : key = PREFIX_PATH_FILE_NAME).
    { unfold FsPath.filename in Hmarker.
      by rewrite (rsplit_dir_empty key Hsep) in Hmarker. }
    split; [by subst key|]. intros _. split; [done|].
    intros USE_AWS_S3 os result w local_path Hread Hfresh.
    rewrite load_unit_eq.
    unfold unit_future, unit_result, unit_events, path_emplace.
    rewrite Hread, Hfresh. by subst key.
Qed.

Lemma selected_key_assertion_iff_separator_witness :
  is_marker_key "prefix.path" = true
  /\ chassert_has_parent_path "prefix.path" = false
  /\ load_unit true (storage_of false [("prefix.path", Ok "/a/")]) "prefix.path" ∅ world0
     = (Ok (<[ "/a/" := "" ]> ∅), add_trace world0 [EvReadObject "prefix.path"]).
Proof.
  destruct (selected_key_assertion_iff_separator "prefix.path" eq_refl) as [Hassert Hbare].
  split; [reflexivity|]. split; [exact Hassert|].
  destruct (Hbare eq_refl) as [_ Hunit].
  apply Hunit; reflexivity.
Defined.

(** X12.  A marker stored under a remote prefix is read back as that
    prefix: for a non-empty [remote] that does not end with a separator,
    the key [remote ++ "/prefix.path"] is selected by the loader, passes
    the assertion, and its unit maps the local path of the marker to
    [remote] when this local path is not yet a key of the map. *)
Theorem marker_under_prefix_round_trip
    (USE_AWS_S3 : bool) (os : ObjectStorage) (remote local_path : string)
    (result : PathMap) (w : World) :
  remote <> "" ->
  chassert_back_is_sep remote = false ->
  readObject os (remote +:+ "/" +:+ PREFIX_PATH_FILE_NAME) = Ok local_path ->
  path_find local_path result = None ->
  is_marker_key (remote +:+ "/" +:+ PREFIX_PATH_FILE_NAME) = true
  /\ chassert_has_parent_path (remote +:+ "/" +:+ PREFIX_PATH_FILE_NAME) = true
  /\ load_unit USE_AWS_S3 os (remote +:+ "/" +:+ PREFIX_PATH_FILE_NAME) result w
     = (Ok (<[ local_path := remote ]> result),
        add_trace w [EvReadObject (remote +:+ "/" +:+ PREFIX_PATH_FILE_NAME)]).
Proof.
  intros Hne Hback Hread Hfresh.
  destruct (parent_path_of_marker remote Hne Hback) as [Hparent Hname].
  split; [|split].
  - unfold is_marker_key. rewrite Hname. reflexivity.
  - unfold chassert_has_parent_path, FsPath.has_parent_path. rewrite Hparent.
    apply negb_true_iff, String.eqb_neq. done.
  - rewrite load_unit_eq.
    unfold unit_future, unit_result, unit_events, path_emplace.
    by rewrite Hread, Hfresh, Hparent.
Qed.

Lemma marker_under_prefix_round_trip_witness :
  is_marker_key ("root/d2" +:+ "/" +:+ PREFIX_PATH_FILE_NAME) = true
  /\ chassert_has_parent_path ("root/d2" +:+ "/" +:+ PREFIX_PATH_FILE_NAME) = true
  /\ load_unit true (storage_of false plain_objects)
       ("root/d2" +:+ "/" +:+ PREFIX_PATH_FILE_NAME) ∅ world0
     = (Ok (<[ "/a/b/" := "root/d2" ]> ∅),
        add_trace world0 [EvReadObject ("root/d2" +:+ "/" +:+ PREFIX_PATH_FILE_NAME)]).
Proof.
  apply marker_under_prefix_round_trip; try reflexivity. done.
Defined.

(** ** Construction: what a failure leaves behind *)

(** X13.  When construction throws, [setKeysGenerator] has not been
    called.  When it throws because the loader threw, the exception is the
    loader's, the metric has the value it had before, and no metric call
    was made. *)
Theorem failed_load_publishes_nothing
    (USE_AWS_S3 : bool) (pool : ThreadPool) (os : ObjectStorage)
    (storage_path_prefix_ : string) (w w' : World) (e : Exception) :
  construct USE_AWS_S3 pool os storage_path_prefix_ w = (Throw e, w') ->
  List.filter is_keys_generator_event (trace w')
  = List.filter is_keys_generator_event (trace w)
  /\ (is_Ok (loadPathPrefixMap USE_AWS_S3 pool (getCommonKeyPrefix os) os w).1 = false ->
      loadPathPrefixMap USE_AWS_S3 pool (getCommonKeyPrefix os) os w = (Throw e, w')
      /\ directory_map_size w' = directory_map_size w
      /\ List.filter is_metric_event (trace w')
         = List.filter is_metric_event (trace w)).
Proof.
  rewrite construct_eq, loadPathPrefixMap_eq.
  destruct (first_error _) as [e0|]; simpl.
  - intros [= <- <-]. simpl.
    rewrite !List.filter_app. simpl.
    rewrite units_events_no_keys_generator, units_events_metric_free, !app_nil_r.
    by repeat split.
  - destruct (isWriteOnce os); [|done]. intros [= <- <-]. simpl.
    split; [|by intros ?].
    rewrite !List.filter_app. simpl.
    by rewrite units_events_no_keys_generator, !app_nil_r.
Qed.

Lemma failed_load_publishes_nothing_witness :
  exists w',
    construct true fifo_pool (storage_of false failing_objects) "" world0
    = (Throw (OtherException "timeout"), w')
    /\ directory_map_size w' = 0%Z
    /\ List.filter is_metric_event (trace w') = [].
Proof.
  destruct (construct true fifo_pool (storage_of false failing_objects) "" world0)
    as [[this|e] w'] eqn:E; [by vm_compute in E|].
  assert (e = OtherException "timeout") as -> by (vm_compute in E; by injection E as ->).
  exists w'. split; [reflexivity|].
  destruct (failed_load_publishes_nothing true fifo_pool (storage_of false failing_objects)
              "" world0 w' _ E) as [_ H].
  destruct (H eq_refl) as (_ & Hm & Hev). split; [exact Hm | exact Hev].
Defined.

(** X14.  On a write-once storage whose load returns, construction throws
    LOGICAL_ERROR with the metric raised by the size of the loaded map: the
    increment of the loader is still there when the exception leaves the
    constructor. *)
Theorem write_once_construction_keeps_increment
    (USE_AWS_S3 : bool) (pool : ThreadPool) (os : ObjectStorage)
    (storage_path_prefix_ : string) (w w1 : World) (loaded : PathMap) :
  isWriteOnce os = true ->
  loadPathPrefixMap USE_AWS_S3 pool (getCommonKeyPrefix os) os w = (Ok loaded, w1) ->
  construct USE_AWS_S3 pool os storage_path_prefix_ w
  = (Throw (LOGICAL_ERROR (write_once_message (getName os))), w1)
  /\ directory_map_size w1 = (directory_map_size w + Z.of_nat (size loaded))%Z
  /\ List.filter is_metric_event (trace w1)
     = List.filter is_metric_event (trace w) ++ [EvMetricAdd (size loaded)].
Proof.
  intros Hwo Hload. rewrite construct_eq, Hload, Hwo. split; [done|].
  rewrite loadPathPrefixMap_eq in Hload.
  destruct (first_error _); [done|]. injection Hload as <- <-. simpl.
  split; [done|].
  rewrite !List.filter_app. simpl.
  by rewrite units_events_metric_free, app_nil_r.
Qed.

Lemma write_once_construction_keeps_increment_witness :
  isWriteOnce (storage_of true replicated_objects) = true
  /\ exists w1,
      construct true fifo_pool (storage_of true replicated_objects) "" world0
      = (Throw (LOGICAL_ERROR (write_once_message "disk")), w1)
      /\ directory_map_size w1 = 2%Z.
Proof.
  split; [reflexivity|].
  destruct (loadPathPrefixMap true fifo_pool "root/" (storage_of true replicated_objects) world0)
    as [[loaded|e] w1] eqn:E; [|by vm_compute in E].
  destruct (write_once_construction_keeps_increment true fifo_pool
              (storage_of true replicated_objects) "" world0 w1 loaded eq_refl E)
    as (Hc & Hm & _).
  exists w1. split; [exact Hc|].
  rewrite Hm. assert (size loaded = 2) as ->; [|done].
  vm_compute in E. by injection E as <- _.
Defined.

(** ** The build without the S3 client *)

Section NoS3Build.

Variable os : ObjectStorage.

Lemma first_error_no_s3 (units : list string) :
  first_error (map (unit_future false os) units) = head (read_failures os units).
Proof.
  unfold read_failures. induction units as [|path rest IH]; simpl; [done|].
  unfold unit_future at 1, tolerated.
  by destruct (readObject os path) as [q|e].
Qed.

Lemma read_failures_nil (units : list string) :
  read_failures os units = [] ->
  Forall (fun path => is_Ok (readObject os path) = true) units.
Proof.
  unfold read_failures. induction units as [|path rest IH]; simpl; [constructor|].
  destruct (readObject os path) as [q|e] eqn:E; [|done].
  intros H. constructor; [by rewrite E | by apply IH].
Qed.

End NoS3Build.

(** X15.  In a build without the S3 client nothing is tolerated: the load
    returns only when every scheduled marker was read, and otherwise
    throws the first read failure of the run, NO_SUCH_KEY included. *)
Theorem build_without_s3_tolerates_nothing
    (pool : ThreadPool) (os : ObjectStorage) (root : string) (w : World) :
  let units := schedule pool (scheduled_units os root) in
  match (loadPathPrefixMap false pool root os w).1 with
  | Ok _ => Forall (fun path => is_Ok (readObject os path) = true) units
  | Throw e => head (read_failures os units) = Some e
  end.
Proof.
  intros units. rewrite loadPathPrefixMap_eq. fold units.
  rewrite first_error_no_s3.
  destruct (read_failures os units) as [|e rest] eqn:E; simpl; [|done].
  by apply read_failures_nil.
Qed.

(** X16.  A key space in which no key has the marker name as its final
    component, empty or not, loads as the empty map: no object is read,
    the metric is raised by zero and keeps its value. *)
Theorem load_without_markers
    (USE_AWS_S3 : bool) (pool : ThreadPool) (os : ObjectStorage)
    (root : string) (w : World) :
  fair pool ->
  Forall (fun key => FsPath.filename key <> PREFIX_PATH_FILE_NAME) (iterate os root) ->
  loadPathPrefixMap USE_AWS_S3 pool root os w
  = (Ok ∅, {| directory_map_size := directory_map_size w;
              trace := trace w ++ [EvIterate root; EvMetricAdd 0] |}).
Proof.
  intros Hfair Hnone.
  assert (Hunits : schedule pool (scheduled_units os root) = []).
  { assert (Hempty : scheduled_units os root = []).
    { unfold scheduled_units. apply filter_none. intros key Hkey.
      rewrite Forall_forall in Hnone.
      unfold is_marker_key. apply String.eqb_neq. by apply Hnone. }
    apply Permutation_nil_r. etrans; [apply Hfair|]. by rewrite Hempty. }
  rewrite loadPathPrefixMap_eq, Hunits. simpl.
  rewrite map_size_empty. f_equal. f_equal; [lia|].
  by rewrite <- app_assoc.
Qed.

Lemma load_without_markers_witness :
  fair lifo_pool
  /\ loadPathPrefixMap true lifo_pool "root/"
       (storage_of false [("root/d1/data.bin", Ok "0123"); ("root/x", Ok "")]) world0
     = (Ok ∅, {| directory_map_size := 0;
                 trace := [EvIterate "root/"; EvMetricAdd 0] |}).
Proof.
  assert (Hlifo : fair lifo_pool) by (intros units; symmetry; apply Permutation_rev).
  split; [exact Hlifo|].
  apply (load_without_markers true lifo_pool _ "root/" world0 Hlifo).
  repeat constructor; done.
Defined.
